(** * text_search_index.py: a naive inverted index keyed by word sets

    Shallow embedding of [TextSearchIndex] (methods [add], [find], [entry])
    and of the driver [main] with its query-resolution loop, followed by
    the properties of the index that the specification states and by
    further properties read off the code.

    Python [str] values are [string]; the entry list [_texts] is a
    [list string]; the [defaultdict(set)] [_index] is a
    [gmap (gset string) (gset Z)], its keys being the [frozenset]s of
    words and its values the sets of entry positions. *)

From Stdlib Require Import ZArith Ascii String List Lia.
From stdpp Require Import gmap strings list fin_maps sets.

Open Scope string_scope.
Open Scope list_scope.
Open Scope stdpp_scope.
Open Scope Z_scope.

(** ** Python string primitives used by [add] *)

Module PyStr.

(** [c in chars] for a character and a [str]. *)
Fixpoint mem_char (c : ascii) (chars : string) : bool :=
  match chars with
  | EmptyString => false
  | String d rest => if Ascii.eqb c d then true else mem_char c rest
  end.

(** [s.lstrip(chars)]: drop the longest prefix made of characters of
    [chars]. *)
Fixpoint lstrip (chars : string) (s : string) : string :=
  match s with
  | EmptyString => EmptyString
  | String c rest => if mem_char c chars then lstrip chars rest else s
  end.

(** [s.rstrip(chars)]: drop the longest suffix made of characters of
    [chars]. *)
Fixpoint rstrip (chars : string) (s : string) : string :=
  match s with
  | EmptyString => EmptyString
  | String c rest =>
      match rstrip chars rest with
      | EmptyString => if mem_char c chars then EmptyString
                       else String c EmptyString
      | kept => String c kept
      end
  end.

(** [s.strip(chars)]: the left index advances first, then the right index
    retreats, never crossing the left one. *)
Definition strip (chars : string) (s : string) : string :=
  rstrip chars (lstrip chars s).

(** [s.split(sep)] for a one-character separator: always at least one
    piece, empty pieces kept. *)
Fixpoint split (sep : ascii) (s : string) : list string :=
  match s with
  | EmptyString => [EmptyString]
  | String c rest =>
      if Ascii.eqb c sep then EmptyString :: split sep rest
      else match split sep rest with
           | [] => [String c EmptyString]
           | piece :: pieces => String c piece :: pieces
           end
  end.

(** [s[1:]]. *)
Definition drop_first (s : string) : string :=
  match s with
  | EmptyString => EmptyString
  | String _ rest => rest
  end.

(** Number of occurrences of a character, [s.count(c)]. *)
Fixpoint count (c : ascii) (s : string) : nat :=
  match s with
  | EmptyString => O
  | String d rest => if Ascii.eqb d c then S (count c rest) else count c rest
  end.

(** First and last character, when the string is not empty. *)
Definition first_char (s : string) : option ascii :=
  match s with
  | EmptyString => None
  | String c _ => Some c
  end.

Fixpoint last_char (s : string) : option ascii :=
  match s with
  | EmptyString => None
  | String c EmptyString => Some c
  | String _ rest => last_char rest
  end.

(** Every character of [s] is one of [chars]. *)
Fixpoint all_in (chars : string) (s : string) : bool :=
  match s with
  | EmptyString => true
  | String c rest => mem_char c chars && all_in chars rest
  end.

(** Neither the first nor the last character of [s] is one of [chars]. *)
Definition clean_ends (chars : string) (s : string) : bool :=
  match first_char s, last_char s with
  | Some a, Some b => negb (mem_char a chars) && negb (mem_char b chars)
  | _, _ => true
  end.

End PyStr.

(** ** itertools.combinations *)

(** [combinations(pool, r)]: the [r]-length selections of positions of
    [pool], in increasing position order, enumerated lexicographically. *)
Fixpoint combinations {A : Type} (pool : list A) (r : nat) : list (list A) :=
  match r, pool with
  | O, _ => [[]]
  | S _, [] => []
  | S r', x :: rest =>
      map (cons x) (combinations rest r') ++ combinations rest r
  end.

(** ** The word normalizer (line 39 of the source) *)

Definition newline : string := String (ascii_of_nat 10) EmptyString.

(** The list the source appends to [[word]] before reducing. *)
Definition strip_chars : list string :=
  [" "; newline; ","; "."; ":"; ";"].

(** [reduce(lambda word, s: word.strip(s), [word] + strip_chars)]. *)
Definition normalize_word (word : string) : string :=
  fold_left (fun word s => PyStr.strip s word) strip_chars word.

(** [[normalize_word(word) for word in text.split(' ')]]. *)
Definition words_of (text : string) : list string :=
  map normalize_word (PyStr.split " "%char text).

(** ** The index object *)

Record TextSearchIndex : Type := mkIndex {
  _texts : list string;
  _index : gmap (gset string) (gset Z)
}.

(** [TextSearchIndex()]. *)
Definition new_index : TextSearchIndex :=
  {| _texts := []; _index := ∅ |}.

(** [frozenset(words)]. *)
Definition frozenset (words : list string) : gset string :=
  list_to_set words.

(** [index[key].add(id)] on a [defaultdict(set)]: a missing key is first
    bound to the empty set. *)
Definition index_add (key : gset string) (id : Z)
    (index : gmap (gset string) (gset Z)) : gmap (gset string) (gset Z) :=
  <[key := default ∅ (index !! key) ∪ {[id]}]> index.

(** [index.get(key, set())]. *)
Definition index_get (index : gmap (gset string) (gset Z))
    (key : gset string) : gset Z :=
  default ∅ (index !! key).

(** The tuples produced by the two nested loops of [add], in order:
    [combinations(words, i)] for [i] from [1] to [len(words)]. *)
Definition all_combinations (words : list string) : list (list string) :=
  concat (map (fun i => combinations words i) (seq 1 (length words))).

(** [add(text)]. *)
Definition add (text : string) (t : TextSearchIndex) : TextSearchIndex :=
  let texts := _texts t ++ [text] in
  let words := words_of text in
  let id := Z.of_nat (length texts) - 1 in
  {| _texts := texts;
     _index := fold_left (fun index c => index_add (frozenset c) id index)
                 (all_combinations words) (_index t) |}.

(** [find(words)]. *)
Definition find (t : TextSearchIndex) (words : list string) : gset Z :=
  index_get (_index t) (frozenset words).

(** [entry(index)]: Python list subscription. A negative subscript counts
    from the end; [None] stands for the [IndexError] raised otherwise. *)
Definition entry (t : TextSearchIndex) (index : Z) : option string :=
  let n := Z.of_nat (length (_texts t)) in
  let i := if index <? 0 then index + n else index in
  if (i <? 0) || (n <=? i) then None else _texts t !! Z.to_nat i.

(** A run of [add] calls, one per line, in order. *)
Definition add_all (lines : list string) (t : TextSearchIndex)
    : TextSearchIndex :=
  fold_left (fun t line => add line t) lines t.

(** The ingestion phase of [main]: a fresh index fed every input line. *)
Definition ingest (lines : list string) : TextSearchIndex :=
  add_all lines new_index.

(** ** Query resolution (lines 77-79 of [main]) *)

(** What the name [indexes_with_chances] is bound to. [dict.get] hands
    back the very set object stored under a present key, so the in-place
    [-=] of the loop writes through to the index; for an absent key it
    hands back the fresh [set()] default, which the index does not hold. *)
Inductive result_ref : Type :=
  | Stored (key : gset string)
  | Fresh (ids : gset Z).

(** The object returned by [find(words)]. *)
Definition find_ref (t : TextSearchIndex) (words : list string) : result_ref :=
  match _index t !! frozenset words with
  | Some _ => Stored (frozenset words)
  | None => Fresh ∅
  end.

(** The current value of the referenced set. *)
Definition deref (t : TextSearchIndex) (r : result_ref) : gset Z :=
  match r with
  | Stored key => index_get (_index t) key
  | Fresh ids => ids
  end.

(** [r -= other]: in-place set difference on the referenced object. *)
Definition isub (r : result_ref) (other : gset Z) (t : TextSearchIndex)
    : result_ref * TextSearchIndex :=
  match r with
  | Stored key =>
      (r, {| _texts := _texts t;
             _index :=
               <[key := index_get (_index t) key ∖ other]> (_index t) |})
  | Fresh ids => (Fresh (ids ∖ other), t)
  end.

(** [indexes_with_chances = t.find(positive_words)] followed by
    [indexes_with_chances -= t.find([word[1:]])] for each negative word,
    each of which still carries its leading [-]. Returns the final value of
    [indexes_with_chances] and the index as the loop leaves it. *)
Definition resolve (positive_words : gset string) (negative_words : list string)
    (t : TextSearchIndex) : gset Z * TextSearchIndex :=
  let start := (find_ref t (elements positive_words), t) in
  let '(r, t') :=
    fold_left (fun st word =>
                 isub (fst st) (find (snd st) [PyStr.drop_first word]) (snd st))
              negative_words start in
  (deref t' r, t').

(** ** The normalizer as the specification words it *)

(** The six characters of the specification's class, as one [chars]
    argument. *)
Definition strip_class : string :=
  String " "%char (String (ascii_of_nat 10) ",.:;").

(** Trimming the class as a whole: leading and trailing characters are
    removed as long as the boundary character is any member of the class. *)
Definition trim_class (word : string) : string :=
  PyStr.strip strip_class word.

(** [x] is [w] with some characters of [chars] removed from its two ends
    (not necessarily all of them). *)
Definition trimmed_from (chars : string) (w x : string) : Prop :=
  ∃ l r, w = l +:+ (x +:+ r)
         ∧ PyStr.all_in chars l = true ∧ PyStr.all_in chars r = true.

(** ** The driver [main] *)

(** [filter(lambda word: word[0] == '-', words)]: the subscript [word[0]]
    raises [IndexError] on an empty word ([None]); nothing catches it. *)
Fixpoint filter_dash (words : list string) : option (list string) :=
  match words with
  | [] => Some []
  | word :: rest =>
      match word with
      | EmptyString => None
      | String c _ =>
          match filter_dash rest with
          | None => None
          | Some kept =>
              Some (if Ascii.eqb c "-" then word :: kept else kept)
          end
      end
  end.

(** The output loop: one [print "Entry found: {}".format(t.entry(index))]
    per id, in the order given; [None] when a call of [entry] raises. *)
Fixpoint print_entries (t : TextSearchIndex) (ids : list Z)
    : option (list string) :=
  match ids with
  | [] => Some []
  | id :: rest =>
      match entry t id with
      | None => None
      | Some text =>
          match print_entries t rest with
          | None => None
          | Some printed => Some (("Entry found: " +:+ text) :: printed)
          end
      end
  end.

(** How a run of [main] ends. *)
Inductive outcome : Type :=
  | Raised_IndexError
  | Exit (status : Z) (message : string)
  | Printed (output : list string).

(** [main()], given what [sys.stdin.readlines()] and [sys.argv[1:]]
    return. The slice in the [try] block cannot raise, so its handler is
    dead code and has no counterpart here. Python leaves the iteration order
    of a set open; the model iterates a set in the order of [elements]. *)
Definition main (stdin_lines : list string) (argv : list string) : outcome :=
  let t := ingest stdin_lines in
  let all_words : gset string := list_to_set argv in
  match filter_dash (elements all_words) with
  | None => Raised_IndexError
  | Some dashed =>
      let negative_words : gset string := list_to_set dashed in
      let positive_words := all_words ∖ negative_words in
      if decide (positive_words = ∅)
      then Exit 1 "Give some none negative word!"
      else
        let '(indexes_with_chances, t') :=
          resolve positive_words (elements negative_words) t in
        match print_entries t' (elements indexes_with_chances) with
        | None => Raised_IndexError
        | Some output => Printed output
        end
  end.

(** ** Reference notions for the driver *)

(** The subtraction loop on a value of its own, with every lookup made in
    the index as ingestion left it. *)
Definition subtract_all (t : TextSearchIndex) (negative_words : list string)
    (start : gset Z) : gset Z :=
  fold_left (fun ids word => ids ∖ find t [PyStr.drop_first word])
            negative_words start.

(** No key of the map is bound to the empty set. *)
Definition values_inhabited (index : gmap (gset string) (gset Z)) : Prop :=
  ∀ key ids, index !! key = Some ids → ids ≠ ∅.

(** An argument counts as negative when it starts with [-]. *)
Definition is_negative (word : string) : bool :=
  match word with
  | EmptyString => false
  | String c _ => Ascii.eqb c "-"
  end.

(** A line answers the arguments when every positive argument is one of
    its tokens and no negative argument, its [-] removed, is. *)
Definition line_matches (argv : list string) (text : string) : bool :=
  forallb (fun word =>
             if is_negative word
             then negb (bool_decide (PyStr.drop_first word ∈ words_of text))
             else bool_decide (word ∈ words_of text))
          argv.

(** * Properties *)

(** ** Combinations are the sub-selections of a given length *)

Section Combinations.
Context {A : Type}.
Implicit Types (pool c : list A) (r : nat).

Lemma elem_of_combinations pool : ∀ r c,
  c ∈ combinations pool r ↔ c `sublist_of` pool ∧ length c = r.
Proof.
  induction pool as [|x rest IH]; intros r c.
  - destruct r; simpl.
    + rewrite list_elem_of_singleton, sublist_nil_r.
      split; [intros ->; done | intros [-> _]; done].
    + rewrite elem_of_nil, sublist_nil_r.
      split; [done | intros [-> ?]; done].
  - destruct r as [|r]; simpl.
    + rewrite list_elem_of_singleton. split.
      * intros ->. split; [apply sublist_nil_l | done].
      * intros [_ Hlen]. by destruct c.
    + rewrite elem_of_app, !list_elem_of_In, in_map_iff, sublist_cons_r.
      setoid_rewrite <- list_elem_of_In. setoid_rewrite IH. split.
      * intros [(c' & <- & Hsub & Hlen) | [Hsub Hlen]].
        -- split; [right; eauto | simpl; lia].
        -- split; [by left | done].
      * intros [[Hsub | (c' & -> & Hsub)] Hlen].
        -- by right.
        -- left. exists c'. simpl in Hlen. split_and!; [done..| lia].
Qed.
End Combinations.

Lemma elem_of_all_combinations (words c : list string) :
  c ∈ all_combinations words ↔ c `sublist_of` words ∧ c ≠ [].
Proof.
  unfold all_combinations. rewrite list_elem_of_In, in_concat. split.
  - intros (cs & Hcs & Hc). apply in_map_iff in Hcs as (i & <- & Hi).
    apply list_elem_of_In, elem_of_combinations in Hc as [Hsub Hlen].
    apply in_seq in Hi. split; [done|]. intros ->. simpl in Hlen. lia.
  - intros [Hsub Hne]. exists (combinations words (length c)). split.
    + apply in_map_iff. exists (length c). split; [done|].
      apply in_seq. apply sublist_length in Hsub.
      destruct c; [done | simpl in *; lia].
    + by apply list_elem_of_In, elem_of_combinations.
Qed.

(** The keys that [add] touches for a given word list: the non-empty
    subsets of its distinct words. *)
Lemma frozenset_combination (words : list string) (key : gset string) :
  (∃ c, c ∈ all_combinations words ∧ frozenset c = key)
  ↔ key ≠ ∅ ∧ key ⊆ frozenset words.
Proof.
  unfold frozenset. split.
  - intros (c & Hc & <-). apply elem_of_all_combinations in Hc as [Hsub Hne].
    split.
    + destruct c as [|w c]; [done|]. simpl. set_solver.
    + intros w Hw. apply elem_of_list_to_set in Hw. apply elem_of_list_to_set.
      eapply elem_of_submseteq; [done | by apply sublist_submseteq].
  - intros [Hne Hsub].
    assert (Hwords : ∀ w, w ∈ key → w ∈ words).
    { intros w Hw. apply Hsub in Hw. by apply elem_of_list_to_set in Hw. }
    exists (filter (λ w, w ∈ key) words). split.
    + apply elem_of_all_combinations. split; [apply sublist_filter|].
      intros Hnil. apply Hne. apply set_eq. intros w. split; [|set_solver].
      intros Hw. assert (Hin : w ∈ filter (λ w, w ∈ key) words).
      { apply list_elem_of_filter. auto. }
      rewrite Hnil in Hin. by apply elem_of_nil in Hin.
    + apply set_eq. intros w. rewrite elem_of_list_to_set, list_elem_of_filter.
      split; [by intros [? _] | auto].
Qed.

(** ** The index after [add] *)

Section Index.
Implicit Types (index : gmap (gset string) (gset Z)).
Implicit Types (key : gset string) (id x : Z) (t : TextSearchIndex).

Lemma index_get_add index key key' id :
  index_get (index_add key id index) key' =
  if decide (key = key') then index_get index key ∪ {[id]}
  else index_get index key'.
Proof.
  unfold index_get, index_add. case_decide as Hk.
  - subst. by rewrite lookup_insert_eq.
  - by rewrite lookup_insert_ne.
Qed.

Lemma elem_of_index_get_fold cs : ∀ index id key x,
  x ∈ index_get
        (fold_left (λ index c, index_add (frozenset c) id index) cs index) key
  ↔ x ∈ index_get index key
    ∨ (x = id ∧ ∃ c, c ∈ cs ∧ frozenset c = key).
Proof.
  induction cs as [|c cs IH]; intros index id key x; simpl.
  - split; [by left|]. intros [?|(_ & c & Hc & _)]; [done|].
    by apply elem_of_nil in Hc.
  - rewrite IH, index_get_add. setoid_rewrite elem_of_cons.
    case_decide as Hk.
    + subst key. rewrite elem_of_union, elem_of_singleton. split.
      * intros [[? | ->]|(-> & c' & ? & ?)]; eauto 8.
      * intros [?|(-> & c' & [-> | ?] & ?)]; eauto 8.
    + split.
      * intros [?|(-> & c' & ? & ?)]; eauto 8.
      * intros [?|(-> & c' & [-> | ?] & ?)]; eauto 8. done.
Qed.

Lemma length_texts_add text t :
  length (_texts (add text t)) = S (length (_texts t)).
Proof. simpl. rewrite length_app. simpl. lia. Qed.

(** The position [add] files the new entry under. *)
Lemma add_id text t :
  Z.of_nat (length (_texts (add text t))) - 1 = Z.of_nat (length (_texts t)).
Proof. rewrite length_texts_add. lia. Qed.

Lemma elem_of_index_add text t key x :
  x ∈ index_get (_index (add text t)) key
  ↔ x ∈ index_get (_index t) key
    ∨ (x = Z.of_nat (length (_texts t))
       ∧ key ≠ ∅ ∧ key ⊆ frozenset (words_of text)).
Proof.
  pose proof (add_id text t) as Hid. simpl in Hid. simpl.
  rewrite elem_of_index_get_fold, Hid, frozenset_combination. done.
Qed.

Lemma add_all_cons line lines t :
  add_all (line :: lines) t = add_all lines (add line t).
Proof. done. Qed.

Lemma add_all_snoc lines line t :
  add_all (lines ++ [line]) t = add line (add_all lines t).
Proof. unfold add_all. by rewrite fold_left_app. Qed.

Lemma texts_add_all lines : ∀ t, _texts (add_all lines t) = _texts t ++ lines.
Proof.
  induction lines as [|line lines IH]; intros t.
  - simpl. by rewrite app_nil_r.
  - rewrite add_all_cons, IH. simpl. by rewrite <- app_assoc.
Qed.

Lemma elem_of_index_add_all lines : ∀ t key x,
  x ∈ index_get (_index (add_all lines t)) key
  ↔ x ∈ index_get (_index t) key
    ∨ ∃ (i : nat) text,
        x = Z.of_nat (length (_texts t) + i) ∧ lines !! i = Some text
        ∧ key ≠ ∅ ∧ key ⊆ frozenset (words_of text).
Proof.
  induction lines as [|line lines IH]; intros t key x.
  - simpl. split; [by left|]. by intros [?|(i & text & _ & ? & _)].
  - rewrite add_all_cons, IH, elem_of_index_add, length_texts_add. split.
    + intros [[?|(-> & ? & ?)]|(i & text & -> & ? & ? & ?)].
      * by left.
      * right. exists 0%nat, line. split_and!; [f_equal; lia | done..].
      * right. exists (S i), text. split_and!; [f_equal; lia | done..].
    + intros [?|(i & text & -> & Hi & ? & ?)]; [by left; left|].
      destruct i as [|i]; simpl in Hi.
      * inversion Hi; subst. left; right. split_and!; [f_equal; lia | done..].
      * right. exists i, text. split_and!; [f_equal; lia | done..].
Qed.

Lemma texts_ingest lines : _texts (ingest lines) = lines.
Proof. unfold ingest. by rewrite texts_add_all. Qed.

Lemma index_get_new key : index_get (_index new_index) key = ∅.
Proof. done. Qed.

(** What a lookup returns once ingestion is over. *)
Lemma elem_of_index_ingest lines key x :
  x ∈ index_get (_index (ingest lines)) key
  ↔ ∃ (i : nat) text,
      x = Z.of_nat i ∧ lines !! i = Some text
      ∧ key ≠ ∅ ∧ key ⊆ frozenset (words_of text).
Proof.
  unfold ingest. rewrite elem_of_index_add_all, index_get_new. simpl.
  split; [intros [?|?]; [set_solver | done] | by right].
Qed.
End Index.

(** ** Entry retrieval *)

Section Entry.
Implicit Types (t : TextSearchIndex) (id : Z).

Lemma entry_position t id :
  0 ≤ id < Z.of_nat (length (_texts t)) →
  entry t id = _texts t !! Z.to_nat id.
Proof.
  intros Hid. unfold entry.
  destruct (Z.ltb_spec id 0) as [?|_]; [lia|].
  destruct (Z.ltb_spec id 0) as [?|_]; [lia|].
  destruct (Z.leb_spec (Z.of_nat (length (_texts t))) id) as [?|_]; [lia|].
  done.
Qed.

Lemma entry_from_end t id :
  - Z.of_nat (length (_texts t)) ≤ id < 0 →
  entry t id = _texts t !! Z.to_nat (id + Z.of_nat (length (_texts t))).
Proof.
  intros Hid. unfold entry.
  destruct (Z.ltb_spec id 0) as [_|?]; [|lia].
  destruct (Z.ltb_spec (id + Z.of_nat (length (_texts t))) 0) as [?|_]; [lia|].
  destruct (Z.leb_spec (Z.of_nat (length (_texts t)))
              (id + Z.of_nat (length (_texts t)))) as [?|_]; [lia|].
  done.
Qed.

Lemma entry_none t id :
  entry t id = None
  ↔ id < - Z.of_nat (length (_texts t))
    ∨ Z.of_nat (length (_texts t)) ≤ id.
Proof.
  split.
  - intros Hnone.
    destruct (Z_lt_le_dec id (- Z.of_nat (length (_texts t)))); [by left|].
    destruct (Z_lt_le_dec id (Z.of_nat (length (_texts t)))); [|by right].
    exfalso. destruct (Z_lt_le_dec id 0).
    + rewrite entry_from_end in Hnone by lia.
      apply lookup_ge_None in Hnone. lia.
    + rewrite entry_position in Hnone by lia.
      apply lookup_ge_None in Hnone. lia.
  - intros Hid. unfold entry.
    destruct (Z.ltb_spec id 0) as [?|?].
    + destruct (Z.ltb_spec (id + Z.of_nat (length (_texts t))) 0); [done|].
      destruct Hid; lia.
    + destruct (Z.ltb_spec id 0); [lia|].
      destruct (Z.leb_spec (Z.of_nat (length (_texts t))) id); [done|].
      destruct Hid; lia.
Qed.
End Entry.

(** ** Query resolution *)

Lemma deref_find_ref (t : TextSearchIndex) (words : list string) :
  deref t (find_ref t words) = find t words.
Proof.
  unfold find_ref, find, index_get.
  destruct (_index t !! frozenset words) eqn:Hk; simpl; [|done].
  unfold index_get. by rewrite Hk.
Qed.

Lemma frozenset_elements (S : gset string) : frozenset (elements S) = S.
Proof. apply list_to_set_elements_L. Qed.

(** One negative word: the value left in [indexes_with_chances]. *)
Lemma resolve_one_negative (P : gset string) (word : string)
    (t : TextSearchIndex) :
  fst (resolve P [word] t)
  = find t (elements P) ∖ find t [PyStr.drop_first word].
Proof.
  unfold resolve. simpl. unfold find_ref.
  replace (find t (elements P)) with (index_get (_index t) P)
    by (unfold find; by rewrite frozenset_elements).
  rewrite frozenset_elements.
  destruct (_index t !! P) as [ids|] eqn:HP; simpl.
  - unfold index_get at 1. simpl. by rewrite lookup_insert_eq.
  - unfold index_get at 1. by rewrite HP.
Qed.

(** ** Strings: [strip] and [split] *)

Section Strings.
Import PyStr.
Implicit Types (s w x y l r chars : string) (c sep : ascii).

Lemma app_nil_l s : "" +:+ s = s.
Proof. reflexivity. Qed.

Lemma app_cons c s y : String c s +:+ y = String c (s +:+ y).
Proof. reflexivity. Qed.

Lemma app_nil_r s : s +:+ "" = s.
Proof. induction s as [|c s IH]; [done|]. by rewrite app_cons, IH. Qed.

Lemma app_assoc_str x y s : (x +:+ y) +:+ s = x +:+ (y +:+ s).
Proof. induction x as [|c x IH]; [done|]. by rewrite !app_cons, IH. Qed.

Lemma length_app_str x y :
  String.length (x +:+ y) = (String.length x + String.length y)%nat.
Proof. induction x as [|c x IH]; [done|]. rewrite app_cons. simpl. lia. Qed.

Lemma all_in_app chars x y :
  all_in chars (x +:+ y) = all_in chars x && all_in chars y.
Proof.
  induction x as [|c x IH]; [done|]. rewrite app_cons. simpl.
  by rewrite IH, andb_assoc.
Qed.

Lemma all_in_mono chars chars' s :
  (∀ c, mem_char c chars = true → mem_char c chars' = true) →
  all_in chars s = true → all_in chars' s = true.
Proof.
  intros Hsub. induction s as [|c s IH]; [done|]. simpl.
  rewrite !andb_true_iff. intros [? ?]. auto.
Qed.

(** *** What [lstrip] and [rstrip] remove *)

Lemma lstrip_decompose chars s :
  ∃ l, s = l +:+ lstrip chars s ∧ all_in chars l = true.
Proof.
  induction s as [|c s (l & Hl & Hin)]; simpl.
  - by exists "".
  - destruct (mem_char c chars) eqn:Hc.
    + exists (String c l). rewrite app_cons, <- Hl. simpl.
      by rewrite Hc, Hin.
    + by exists "".
Qed.

Lemma rstrip_decompose chars s :
  ∃ r, s = rstrip chars s +:+ r ∧ all_in chars r = true.
Proof.
  induction s as [|c s (r & Hr & Hin)]; simpl.
  - by exists "".
  - destruct (rstrip chars s) as [|d kept] eqn:Hkept.
    + rewrite app_nil_l in Hr. subst r.
      destruct (mem_char c chars) eqn:Hc.
      * exists (String c s). simpl. by rewrite Hc, Hin.
      * exists s. by rewrite app_cons, app_nil_l.
    + exists r. by rewrite app_cons, <- Hr.
Qed.

Lemma length_lstrip chars s :
  (String.length (lstrip chars s) ≤ String.length s)%nat.
Proof.
  destruct (lstrip_decompose chars s) as (l & Hl & _).
  rewrite Hl at 2. rewrite length_app_str. lia.
Qed.

Lemma length_rstrip chars s :
  (String.length (rstrip chars s) ≤ String.length s)%nat.
Proof.
  destruct (rstrip_decompose chars s) as (r & Hr & _).
  rewrite Hr at 2. rewrite length_app_str. lia.
Qed.

(** *** Padding made of [chars] is invisible to [strip chars] *)

Lemma lstrip_all_in chars l y :
  all_in chars l = true → lstrip chars (l +:+ y) = lstrip chars y.
Proof.
  induction l as [|c l IH]; [done|]. simpl.
  rewrite andb_true_iff. intros [Hc Hl]. rewrite ?app_cons. simpl.
  rewrite Hc. auto.
Qed.

Lemma rstrip_all_in chars r : all_in chars r = true → rstrip chars r = "".
Proof.
  induction r as [|c r IH]; [done|]. simpl.
  rewrite andb_true_iff. intros [Hc Hr]. by rewrite IH, Hc.
Qed.

Lemma rstrip_app_all_in chars y r :
  all_in chars r = true → rstrip chars (y +:+ r) = rstrip chars y.
Proof.
  intros Hr. induction y as [|c y IH].
  - rewrite app_nil_l. by apply rstrip_all_in.
  - rewrite app_cons. simpl. by rewrite IH.
Qed.

Lemma lstrip_app chars x r :
  lstrip chars (x +:+ r)
  = match lstrip chars x with
    | EmptyString => lstrip chars r
    | kept => kept +:+ r
    end.
Proof.
  induction x as [|c x IH]; [done|]. rewrite app_cons. simpl.
  destruct (mem_char c chars); [done|]. by rewrite app_cons.
Qed.

Lemma strip_padded chars l x r :
  all_in chars l = true → all_in chars r = true →
  strip chars (l +:+ (x +:+ r)) = strip chars x.
Proof.
  intros Hl Hr. unfold strip. rewrite lstrip_all_in by done.
  rewrite lstrip_app. destruct (lstrip chars x) as [|c kept].
  - rewrite <- (app_nil_r r), lstrip_all_in by done. done.
  - by rewrite rstrip_app_all_in.
Qed.

(** *** Partial trimming *)

Lemma trimmed_from_refl chars w : trimmed_from chars w w.
Proof. exists "", "". by rewrite app_nil_l, app_nil_r. Qed.

Lemma trimmed_from_trans chars w x y :
  trimmed_from chars w x → trimmed_from chars x y → trimmed_from chars w y.
Proof.
  intros (l & r & -> & Hl & Hr) (l' & r' & -> & Hl' & Hr').
  exists (l +:+ l'), (r' +:+ r). split_and!.
  - by rewrite !app_assoc_str.
  - by rewrite all_in_app, Hl, Hl'.
  - by rewrite all_in_app, Hr, Hr'.
Qed.

Lemma trimmed_from_strip chars chars' w :
  (∀ c, mem_char c chars' = true → mem_char c chars = true) →
  trimmed_from chars w (strip chars' w).
Proof.
  intros Hsub. unfold strip.
  destruct (lstrip_decompose chars' w) as (l & Hl & Hlin).
  destruct (rstrip_decompose chars' (lstrip chars' w)) as (r & Hr & Hrin).
  exists l, r. split_and!; [by rewrite <- Hr | by eapply all_in_mono..].
Qed.

Lemma strip_trimmed_from chars w x :
  trimmed_from chars w x → strip chars w = strip chars x.
Proof. intros (l & r & -> & Hl & Hr). by apply strip_padded. Qed.

(** *** Fixed points of [strip] *)

Lemma lstrip_fixed chars s :
  lstrip chars s = s
  ↔ ∀ c, first_char s = Some c → mem_char c chars = false.
Proof.
  destruct s as [|c s]; simpl; [done|].
  destruct (mem_char c chars) eqn:Hc.
  - split.
    + intros Heq. pose proof (length_lstrip chars s) as Hlen.
      rewrite Heq in Hlen. simpl in Hlen. lia.
    + intros Hfirst. specialize (Hfirst c eq_refl). congruence.
  - split; [|done]. intros _ c' [= <-]. done.
Qed.

Lemma rstrip_fixed chars s :
  rstrip chars s = s
  ↔ ∀ c, last_char s = Some c → mem_char c chars = false.
Proof.
  induction s as [|c s IH]; simpl; [done|].
  destruct s as [|d s].
  - simpl. destruct (mem_char c chars) eqn:Hc.
    + split; [done|]. intros Hlast. specialize (Hlast c eq_refl). congruence.
    + split; [|done]. intros _ c' [= <-]. done.
  - rewrite <- IH. destruct (rstrip chars (String d s)) as [|e kept] eqn:Hk.
    + split; [|by intros ?]. destruct (mem_char c chars); discriminate.
    + split; [intros Heq; by inversion Heq | by intros ->].
Qed.

Lemma last_char_none s : last_char s = None → s = "".
Proof.
  induction s as [|c s IH]; [done|]. simpl.
  destruct s as [|d s]; [done|]. intros Hnone. by apply IH in Hnone.
Qed.

Lemma strip_fixed chars s :
  strip chars s = s ↔ clean_ends chars s = true.
Proof.
  assert (Hsplit : strip chars s = s
                   ↔ lstrip chars s = s ∧ rstrip chars s = s).
  { unfold strip. split.
    - intros Heq.
      assert (Hl : lstrip chars s = s).
      { destruct (lstrip_decompose chars s) as (l & Hl & _).
        pose proof (length_rstrip chars (lstrip chars s)) as Hlen.
        rewrite Heq in Hlen. rewrite Hl in Hlen at 1.
        rewrite length_app_str in Hlen.
        destruct l; [by rewrite app_nil_l in Hl | simpl in Hlen; lia]. }
      split; [done|]. by rewrite Hl in Heq.
    - intros [-> ->]. done. }
  rewrite Hsplit, lstrip_fixed, rstrip_fixed. unfold clean_ends.
  destruct (first_char s) as [a|] eqn:Ha, (last_char s) as [b|] eqn:Hb.
  - rewrite andb_true_iff, !negb_true_iff. split.
    + intros [Hfirst Hlast]. auto.
    + intros [Hfirst Hlast]. split; intros c' Heq; by inversion Heq; subst.
  - apply last_char_none in Hb. by subst s.
  - split; [done|]. intros _. split; [done|].
    destruct s; simpl in *; discriminate.
  - split; [done|]. intros _. split; done.
Qed.

(** *** [split] *)

Lemma split_nonempty sep s : split sep s ≠ [].
Proof.
  destruct s as [|c s]; simpl; [done|].
  destruct (Ascii.eqb c sep); [done|]. by destruct (split sep s).
Qed.

Lemma length_split sep s : length (split sep s) = S (count sep s).
Proof.
  induction s as [|c s IH]; simpl; [done|].
  destruct (Ascii.eqb c sep); simpl; [by rewrite IH|].
  pose proof (split_nonempty sep s).
  destruct (split sep s); [done|]. done.
Qed.

Lemma split_pieces sep s piece :
  piece ∈ split sep s → count sep piece = O.
Proof.
  revert piece. induction s as [|c s IH]; intros piece; simpl.
  - by intros ->%list_elem_of_singleton.
  - destruct (Ascii.eqb c sep) eqn:Hc.
    + intros [-> | ?]%elem_of_cons; [done | auto].
    + destruct (split sep s) as [|first rest].
      * intros ->%list_elem_of_singleton. simpl. by rewrite Hc.
      * intros [-> | ?]%elem_of_cons.
        -- simpl. rewrite Hc. apply IH. by left.
        -- apply IH. by right.
Qed.

(** [sep.join(s.split(sep))] gives [s] back. *)
Lemma join_split sep s :
  String.concat (String sep EmptyString) (split sep s) = s.
Proof.
  induction s as [|c s IH]; simpl; [done|].
  pose proof (split_nonempty sep s) as Hne.
  destruct (Ascii.eqb_spec c sep) as [->|Hc].
  - destruct (split sep s) as [|first rest]; [done|].
    change (String sep (String.concat (String sep EmptyString)
                          (first :: rest)) = String sep s).
    by rewrite IH.
  - destruct (split sep s) as [|first rest]; [done|].
    destruct rest as [|second rest].
    + simpl in IH. by rewrite IH.
    + change (String c (String.concat (String sep EmptyString)
                          (first :: second :: rest)) = String c s).
      by rewrite IH.
Qed.
End Strings.

(** ** The normalizer *)

Section Normalizer.
Import PyStr.

(** Each of the six one-character arguments names a member of the
    class. *)
Lemma strip_chars_in_class (s : string) (c : ascii) :
  s ∈ strip_chars → mem_char c s = true → mem_char c strip_class = true.
Proof.
  unfold strip_chars. rewrite !elem_of_cons, elem_of_nil.
  intros [->|[->|[->|[->|[->|[->|[]]]]]]]; simpl;
    destruct (Ascii.eqb_spec c " "); try done;
    destruct (Ascii.eqb_spec c (ascii_of_nat 10)); try done;
    destruct (Ascii.eqb_spec c ","); try done;
    destruct (Ascii.eqb_spec c "."); try done;
    destruct (Ascii.eqb_spec c ":"); try done;
    destruct (Ascii.eqb_spec c ";"); done.
Qed.

Lemma fold_strip_trimmed (chars : string) (seps : list string) :
  (∀ s c, s ∈ seps → mem_char c s = true → mem_char c chars = true) →
  ∀ w, trimmed_from chars w (fold_left (λ word s, strip s word) seps w).
Proof.
  induction seps as [|s seps IH]; intros Hsub w; simpl.
  - apply trimmed_from_refl.
  - eapply trimmed_from_trans.
    + apply (trimmed_from_strip chars s). intros c. apply Hsub. by left.
    + apply IH. intros s' c Hs'. apply Hsub. by right.
Qed.

Lemma normalize_word_trimmed (word : string) :
  trimmed_from strip_class word (normalize_word word).
Proof. apply fold_strip_trimmed. apply strip_chars_in_class. Qed.

Lemma length_words_of (text : string) :
  length (words_of text) = length (split " " text).
Proof. unfold words_of. apply length_map. Qed.
End Normalizer.

(** ** Lookups after ingestion *)

Lemma frozenset_singleton (w : string) : frozenset [w] = {[w]}.
Proof. unfold frozenset. simpl. apply (right_id_L ∅ (∪)). Qed.

Lemma frozenset_singleton_ne (w : string) : frozenset [w] ≠ ∅.
Proof.
  rewrite frozenset_singleton. intros Hempty.
  apply (not_elem_of_empty (C:=gset string) w). rewrite <- Hempty.
  by apply elem_of_singleton.
Qed.

Lemma frozenset_singleton_subseteq (w : string) (words : list string) :
  frozenset [w] ⊆ frozenset words ↔ w ∈ words.
Proof.
  rewrite frozenset_singleton. unfold frozenset.
  rewrite <- (elem_of_list_to_set (C:=gset string)).
  apply singleton_subseteq_l.
Qed.

Lemma elem_of_find_ingest (lines ws : list string) (id : Z) :
  frozenset ws ≠ ∅ →
  id ∈ find (ingest lines) ws
  ↔ ∃ (i : nat) text, id = Z.of_nat i ∧ lines !! i = Some text
                      ∧ frozenset ws ⊆ frozenset (words_of text).
Proof.
  intros Hne. unfold find. rewrite elem_of_index_ingest.
  split.
  - intros (i & text & ? & ? & _ & ?). eauto.
  - intros (i & text & ? & ? & ?). exists i, text. done.
Qed.

(** * The claims of the specification *)

(** C1 (subset closure). Whatever the index held before, once [add(text)]
    returns the new entry sits at position [len(_texts)] of the old list,
    and for every non-empty set [S] of distinct normalized tokens of [text]
    the index value under the key [S] contains that position; any run of
    later [add] calls keeps it there. *)
Theorem subset_closure (t : TextSearchIndex) (text : string)
    (later : list string) (S : gset string) :
  S ≠ ∅ → S ⊆ frozenset (words_of text) →
  let id := Z.of_nat (length (_texts t)) in
  _texts (add text t) !! length (_texts t) = Some text
  ∧ id ∈ index_get (_index (add text t)) S
  ∧ id ∈ index_get (_index (add_all later (add text t))) S.
Proof.
  intros Hne Hsub id.
  assert (Hnow : id ∈ index_get (_index (add text t)) S).
  { apply elem_of_index_add. right. done. }
  split_and!.
  - simpl. rewrite lookup_app_r by lia. by rewrite Nat.sub_diag.
  - done.
  - apply elem_of_index_add_all. by left.
Qed.

Lemma subset_closure_witness :
  _texts (add "a a b" (ingest ["python linux server"])) !! 1%nat
  = Some "a a b"
  ∧ 1 ∈ index_get (_index (add "a a b" (ingest ["python linux server"])))
          {["a"; "b"]}
  ∧ 1 ∈ index_get
          (_index (add_all ["windows server only"]
                     (add "a a b" (ingest ["python linux server"]))))
          {["a"; "b"]}.
Proof.
  apply (subset_closure (ingest ["python linux server"]) "a a b"
           ["windows server only"] {["a"; "b"]}).
  - apply (bool_decide_unpack _). vm_compute. exact I.
  - apply (bool_decide_unpack _). vm_compute. exact I.
Defined.

(** C2 (lookup exactness), as it holds: after any sequence of [add]
    calls, for a non-empty word set [find] returns exactly the positions of
    the lines whose distinct normalized tokens include every word of the
    set; for the empty word set [find] returns the empty set, although
    every line includes it. *)
Theorem lookup_exact_nonempty (lines : list string) (ws : list string) :
  (frozenset ws ≠ ∅ →
   ∀ id : Z,
     id ∈ find (ingest lines) ws
     ↔ ∃ (i : nat) text, id = Z.of_nat i ∧ lines !! i = Some text
                         ∧ frozenset ws ⊆ frozenset (words_of text))
  ∧ (frozenset ws = ∅ →
     find (ingest lines) ws = ∅
     ∧ ∀ text, frozenset ws ⊆ frozenset (words_of text)).
Proof.
  split.
  - intros Hne id. unfold find. split.
    + intros Hid.
      apply elem_of_index_ingest in Hid as (i & text & ? & ? & _ & ?).
      by exists i, text.
    + intros (i & text & ? & ? & ?). apply elem_of_index_ingest.
      by exists i, text.
  - intros Hempty. split.
    + apply set_eq. intros id. split.
      * unfold find. intros Hid.
        apply elem_of_index_ingest in Hid as (i & text & _ & _ & Hne & _).
        by destruct Hne.
      * intros Hid. by apply not_elem_of_empty in Hid.
    + intros text. rewrite Hempty. apply empty_subseteq.
Qed.

Lemma lookup_exact_nonempty_witness :
  (0 ∈ find (ingest ["python linux server"; "windows server only"])
         ["linux"; "python"]
   ↔ ∃ (i : nat) text,
       0 = Z.of_nat i
       ∧ ["python linux server"; "windows server only"] !! i = Some text
       ∧ frozenset ["linux"; "python"] ⊆ frozenset (words_of text))
  ∧ find (ingest ["python linux server"; "windows server only"]) [] = ∅.
Proof.
  split.
  - apply (proj1 (lookup_exact_nonempty
                    ["python linux server"; "windows server only"]
                    ["linux"; "python"])).
    apply (bool_decide_unpack _). vm_compute. exact I.
  - apply (proj2 (lookup_exact_nonempty
                    ["python linux server"; "windows server only"] [])).
    reflexivity.
Defined.

(** C2 as stated fails at the empty word set: every entry includes it, yet
    [add] never files anything under the empty key. *)
Lemma lookup_exact_fails_on_empty_set :
  ¬ (∀ (lines ws : list string) (id : Z),
       id ∈ find (ingest lines) ws
       ↔ ∃ (i : nat) text, id = Z.of_nat i ∧ lines !! i = Some text
                           ∧ frozenset ws ⊆ frozenset (words_of text)).
Proof.
  intros Hclaim.
  assert (Hin : 0 ∈ find (ingest ["a"]) []).
  { apply Hclaim. exists 0%nat, "a". split_and!; [done..|].
    unfold frozenset. simpl. apply empty_subseteq. }
  revert Hin. apply (bool_decide_unpack _). vm_compute. exact I.
Qed.

(** C3 (negation correctness). After ingestion, the driver's loop run with
    positive set [P] and the single negative argument [-w] leaves
    [find(P) - find({w})]; that set holds no position of a line with [w]
    among its tokens, and keeps every member of [find(P)] that is not the
    position of such a line. *)
Theorem negation_correct (lines : list string) (P : gset string) (w : string) :
  let t := ingest lines in
  let result := fst (resolve P [String "-"%char w] t) in
  result = find t (elements P) ∖ find t [w]
  ∧ (∀ (i : nat) text,
       lines !! i = Some text → w ∈ words_of text → Z.of_nat i ∉ result)
  ∧ (∀ id,
       id ∈ find t (elements P) →
       (∀ (i : nat) text,
          id = Z.of_nat i → lines !! i = Some text →
          w ∉ words_of text) →
       id ∈ result).
Proof.
  intros t result.
  assert (Hres : result = find t (elements P) ∖ find t [w]).
  { unfold result. by rewrite resolve_one_negative. }
  assert (Hw : ∀ id, id ∈ find t [w]
             ↔ ∃ (i : nat) text, id = Z.of_nat i ∧ lines !! i = Some text
                                 ∧ w ∈ words_of text).
  { intros id. unfold t.
    rewrite elem_of_find_ingest by apply frozenset_singleton_ne.
    by setoid_rewrite frozenset_singleton_subseteq. }
  split_and!; [done | |].
  - intros i text Hi Hin. rewrite Hres, elem_of_difference.
    intros [_ Hnot]. apply Hnot, Hw. eauto.
  - intros id HP Hout. rewrite Hres, elem_of_difference. split; [done|].
    intros Hneg. apply Hw in Hneg as (i & text & -> & Hi & Hin).
    by eapply Hout.
Qed.

Lemma negation_correct_witness :
  0 ∈ fst (resolve {["server"]} ["-windows"]
             (ingest ["python linux server"; "windows server only"]))
  ∧ 1 ∉ fst (resolve {["server"]} ["-windows"]
               (ingest ["python linux server"; "windows server only"])).
Proof.
  destruct (negation_correct ["python linux server"; "windows server only"]
              {["server"]} "windows")
    as (_ & Hdrop & Hkeep).
  split.
  - apply Hkeep.
    + apply (bool_decide_unpack _). vm_compute. exact I.
    + intros i text Hid Hi. destruct i as [|i]; [|lia].
      simpl in Hi. inversion Hi; subst text.
      apply (bool_decide_unpack _). vm_compute. exact I.
  - apply (Hdrop 1%nat "windows server only"); [reflexivity|].
    apply (bool_decide_unpack _). vm_compute. exact I.
Defined.

(** C4 (normalizer stripping), as it holds: the normalizer calls [strip]
    six times, once per character and in the fixed order space, newline,
    comma, period, colon, semicolon, each call removing the leading and
    trailing run of that one character. What it removes from the two ends
    are characters of the class only, trimming its result by the class
    gives the class trim of the piece, and its result is the class trim
    exactly when neither end of the result is a character of the class. *)
Theorem normalize_word_strips_in_order (word : string) :
  normalize_word word
  = PyStr.strip ";" (PyStr.strip ":" (PyStr.strip "." (PyStr.strip ","
      (PyStr.strip newline (PyStr.strip " " word)))))
  ∧ trimmed_from strip_class word (normalize_word word)
  ∧ trim_class (normalize_word word) = trim_class word
  ∧ (normalize_word word = trim_class word
     ↔ PyStr.clean_ends strip_class (normalize_word word) = true).
Proof.
  assert (Htrim : trim_class (normalize_word word) = trim_class word).
  { symmetry. apply strip_trimmed_from, normalize_word_trimmed. }
  split_and!.
  - reflexivity.
  - apply normalize_word_trimmed.
  - done.
  - rewrite <- Htrim. unfold trim_class. rewrite <- strip_fixed.
    split; intros Heq; by symmetry.
Qed.

(** C4 as stated fails: in the piece [a,.] the comma is looked for before
    the period is gone, so the comma stays. *)
Lemma normalize_word_is_not_class_trim :
  ¬ (∀ text piece, piece ∈ PyStr.split " " text →
                   normalize_word piece = trim_class piece).
Proof.
  intros Hclaim. specialize (Hclaim "a,." "a,.").
  assert (Hcode : normalize_word "a,." = "a,") by reflexivity.
  assert (Hspec : trim_class "a,." = "a") by reflexivity.
  rewrite Hcode, Hspec in Hclaim.
  discriminate Hclaim. by left.
Qed.

(** C5 (out-of-range retrieval), as it holds: with [n] entries stored,
    [entry(id)] raises exactly when [id < -n] or [id >= n]; a negative
    [id] from [-n] up to [-1] is taken from the end of the list and yields
    the text at position [id + n]. *)
Theorem entry_fails_iff_outside (t : TextSearchIndex) (id : Z) :
  let n := Z.of_nat (length (_texts t)) in
  (entry t id = None ↔ id < - n ∨ n ≤ id)
  ∧ (- n ≤ id < 0 →
     entry t id = _texts t !! Z.to_nat (id + n) ∧ is_Some (entry t id)).
Proof.
  intros n. split; [apply entry_none|].
  intros Hid. rewrite entry_from_end by done. split; [done|].
  apply lookup_lt_is_Some. unfold n in Hid. lia.
Qed.

Lemma entry_fails_iff_outside_witness :
  entry (ingest ["python linux server"; "windows server only"]) 2 = None
  ∧ entry (ingest ["python linux server"; "windows server only"]) (-3) = None
  ∧ entry (ingest ["python linux server"; "windows server only"]) (-2)
    = Some "python linux server".
Proof.
  pose (t := ingest ["python linux server"; "windows server only"]).
  change (entry t 2 = None ∧ entry t (-3) = None
          ∧ entry t (-2) = Some "python linux server").
  destruct (entry_fails_iff_outside t 2) as [[_ Hhigh] _].
  destruct (entry_fails_iff_outside t (-3)) as [[_ Hlow] _].
  destruct (entry_fails_iff_outside t (-2)) as [_ Hneg].
  split_and!.
  - apply Hhigh. right. vm_compute. discriminate.
  - apply Hlow. left. vm_compute. reflexivity.
  - destruct Hneg as [-> _]; [|reflexivity].
    split; vm_compute; [discriminate | reflexivity].
Defined.

(** C5 as stated fails: [-1] is no position handed out by [add], yet
    [entry(-1)] returns the last stored text. *)
Lemma entry_negative_id_returns_text :
  ¬ (∀ (t : TextSearchIndex) (id : Z),
       ¬ (0 ≤ id < Z.of_nat (length (_texts t))) → entry t id = None).
Proof.
  intros Hclaim.
  specialize (Hclaim (ingest ["a"]) (-1)).
  assert (Hsome : entry (ingest ["a"]) (-1) = Some "a") by reflexivity.
  rewrite Hclaim in Hsome; [discriminate|]. simpl. lia.
Qed.

(** C6 (unknown key). [find] on a fresh index is empty; [find] is empty for
    any key the index does not hold; and after ingestion it is empty for
    every key that no combination of any ingested line was filed under. *)
Theorem find_unknown_key_empty :
  (∀ ws, find new_index ws = ∅)
  ∧ (∀ t ws, _index t !! frozenset ws = None → find t ws = ∅)
  ∧ (∀ lines ws,
       (∀ text c, text ∈ lines →
                  c ∈ all_combinations (words_of text) →
                  frozenset c ≠ frozenset ws) →
       find (ingest lines) ws = ∅).
Proof.
  split_and!.
  - done.
  - intros t ws Hnone. unfold find, index_get. by rewrite Hnone.
  - intros lines ws Hnever. apply set_eq. intros id.
    split; [|by intros ?%not_elem_of_empty].
    unfold find. rewrite elem_of_index_ingest.
    intros (i & text & _ & Hi & Hkey).
    apply frozenset_combination in Hkey as (c & Hc & Heq).
    exfalso. eapply Hnever; [|done..]. by eapply list_elem_of_lookup_2.
Qed.

Lemma find_unknown_key_empty_witness :
  find new_index ["python"] = ∅
  ∧ find (ingest ["python linux server"]) ["windows"] = ∅.
Proof.
  destruct find_unknown_key_empty as (Hfresh & Hmiss & _).
  split; [apply Hfresh | apply Hmiss; reflexivity].
Defined.

(** C7 (empty-string ingestion). [add("")] splits into the single empty
    token, enumerates the single combination made of it, appends the empty
    text, files the new position under the key holding only the empty
    token and nothing else, so [find] answers as before on every other
    key. *)
Theorem add_empty_string (t : TextSearchIndex) :
  let id := Z.of_nat (length (_texts t)) in
  words_of "" = [""]
  ∧ all_combinations (words_of "") = [[""]]
  ∧ _texts (add "" t) = _texts t ++ [""]
  ∧ _index (add "" t) = index_add {[""]} id (_index t)
  ∧ id ∈ find (add "" t) [""]
  ∧ (∀ ws, frozenset ws ≠ {[""]} → find (add "" t) ws = find t ws).
Proof.
  intros id.
  assert (Hindex : _index (add "" t) = index_add {[""]} id (_index t)).
  { pose proof (add_id "" t) as Hid. simpl in Hid. simpl.
    rewrite Hid. change (normalize_word "") with "".
    by rewrite frozenset_singleton. }
  split_and!; [done..| |].
  - unfold find. rewrite Hindex, index_get_add, frozenset_singleton.
    rewrite decide_True by done. apply elem_of_union_r.
    by apply elem_of_singleton.
  - intros ws Hws. unfold find. rewrite Hindex, index_get_add.
    by rewrite decide_False by done.
Qed.

Lemma add_empty_string_witness :
  find (add "" (ingest ["python linux server"])) ["server"]
  = find (ingest ["python linux server"]) ["server"].
Proof.
  destruct (add_empty_string (ingest ["python linux server"]))
    as (_ & _ & _ & _ & _ & Hother).
  apply Hother. apply (bool_decide_unpack _). vm_compute. exact I.
Defined.

(** C8 (tokenization shape). The token list has one token per piece of the
    split; the pieces are one more than the space characters of the text,
    none of them contains a space, and joining them with a space gives the
    text back, so nothing but the space separates and no piece is
    dropped. *)
Theorem tokenization_shape (text : string) :
  length (words_of text) = length (PyStr.split " " text)
  ∧ length (PyStr.split " " text) = S (PyStr.count " " text)
  ∧ String.concat " " (PyStr.split " " text) = text
  ∧ (∀ piece, piece ∈ PyStr.split " " text → PyStr.count " " piece = O)
  ∧ words_of text = map normalize_word (PyStr.split " " text).
Proof.
  split_and!.
  - apply length_words_of.
  - apply length_split.
  - apply join_split.
  - intros piece. apply split_pieces.
  - done.
Qed.

Lemma tokenization_shape_witness :
  PyStr.count " " (String "a" (String (ascii_of_nat 9) "b")) = O
  ∧ length (words_of (String "a" (String (ascii_of_nat 9) "b  c"))) = 3%nat.
Proof.
  destruct (tokenization_shape (String "a" (String (ascii_of_nat 9) "b  c")))
    as (Hlen & Hcount & _ & Hpieces & _).
  split.
  - apply Hpieces. apply list_elem_of_here.
  - rewrite Hlen, Hcount. reflexivity.
Defined.

(** C9 (verbatim append). With [n] entries stored, [add(text)] appends
    [text] unchanged at position [n], files [n] (and no other new id) in
    the index, [entry(n)] then returns [text], and [entry(i)] is unchanged
    for every earlier position [i]. *)
Theorem add_append_roundtrip (t : TextSearchIndex) (text : string) :
  let n := Z.of_nat (length (_texts t)) in
  _texts (add text t) = _texts t ++ [text]
  ∧ entry (add text t) n = Some text
  ∧ (∀ i, 0 ≤ i < n → entry (add text t) i = entry t i)
  ∧ (∀ c, c ∈ all_combinations (words_of text) →
          n ∈ find (add text t) c)
  ∧ (∀ key id, id ∈ index_get (_index (add text t)) key →
               id ∈ index_get (_index t) key ∨ id = n).
Proof.
  intros n. pose proof (length_texts_add text t) as Hlen. split_and!.
  - done.
  - rewrite entry_position by (rewrite Hlen; lia).
    unfold n. rewrite Nat2Z.id. simpl.
    rewrite lookup_app_r by lia. by rewrite Nat.sub_diag.
  - intros i Hi. rewrite !entry_position by (rewrite ?Hlen; lia).
    simpl. apply lookup_app_l. lia.
  - intros c Hc. unfold find. apply elem_of_index_add. right.
    split; [done|]. apply frozenset_combination. eauto.
  - intros key id Hid. apply elem_of_index_add in Hid as [?|(? & _)]; auto.
Qed.

Lemma add_append_roundtrip_witness :
  entry (add "windows server only" (ingest ["python linux server"])) 0
  = entry (ingest ["python linux server"]) 0
  ∧ 1 ∈ find (add "windows server only" (ingest ["python linux server"]))
          ["windows"; "only"].
Proof.
  pose (t := ingest ["python linux server"]).
  change (entry (add "windows server only" t) 0 = entry t 0
          ∧ 1 ∈ find (add "windows server only" t) ["windows"; "only"]).
  destruct (add_append_roundtrip t "windows server only")
    as (_ & _ & Hold & Hnew & _).
  split.
  - apply Hold. vm_compute. split; [discriminate | reflexivity].
  - apply Hnew. apply (bool_decide_unpack _). vm_compute. exact I.
Defined.

(** C10 (stored ids are valid). After any ingestion, every id held in any
    value of the index is a position of the entry list, and every id that
    [find] returns is accepted by [entry], which yields the line ingested
    at that position. *)
Theorem stored_ids_valid (lines : list string) :
  let t := ingest lines in
  (∀ key ids id, _index t !! key = Some ids → id ∈ ids →
                 0 ≤ id < Z.of_nat (length (_texts t)))
  ∧ (∀ ws id, id ∈ find t ws →
              0 ≤ id < Z.of_nat (length (_texts t))
              ∧ ∃ text, entry t id = Some text
                        ∧ lines !! Z.to_nat id = Some text).
Proof.
  intros t.
  assert (Hvalid : ∀ key id, id ∈ index_get (_index t) key →
            0 ≤ id < Z.of_nat (length (_texts t))
            ∧ ∃ text, entry t id = Some text
                      ∧ lines !! Z.to_nat id = Some text).
  { intros key id Hid. unfold t in *.
    apply elem_of_index_ingest in Hid as (i & text & -> & Hi & _).
    pose proof (lookup_lt_Some _ _ _ Hi) as Hlt.
    assert (Hrange : 0 ≤ Z.of_nat i
                     < Z.of_nat (length (_texts (ingest lines)))).
    { rewrite texts_ingest. lia. }
    split; [done|]. exists text.
    rewrite entry_position by done. by rewrite texts_ingest, Nat2Z.id. }
  split.
  - intros key ids id Hkey Hid. apply (Hvalid key id).
    unfold index_get. by rewrite Hkey.
  - intros ws id Hid. by apply (Hvalid (frozenset ws)).
Qed.

Lemma stored_ids_valid_witness :
  0 ≤ 1 < Z.of_nat (length (_texts (ingest ["python linux server";
                                            "windows server only"])))
  ∧ ∃ text,
      entry (ingest ["python linux server"; "windows server only"]) 1
      = Some text
      ∧ ["python linux server"; "windows server only"] !! Z.to_nat 1
        = Some text.
Proof.
  destruct (stored_ids_valid ["python linux server"; "windows server only"])
    as [_ Hfind].
  apply (Hfind ["server"] 1).
  apply (bool_decide_unpack _). vm_compute. exact I.
Defined.

(** * Further properties of the code *)

(** ** The subtraction loop of [main] and its aliasing *)

Section Resolve.
Implicit Types (t : TextSearchIndex) (P key : gset string).
Implicit Types (negs : list string) (ids acc : gset Z) (id : Z).

Lemma elem_of_subtract_all t negs : ∀ ids id,
  id ∈ subtract_all t negs ids
  ↔ id ∈ ids ∧ ∀ word, word ∈ negs → id ∉ find t [PyStr.drop_first word].
Proof.
  unfold subtract_all. induction negs as [|word negs IH]; intros ids id; simpl.
  - split; [intros ?; split; [done|] | by intros [? _]].
    intros word Hword. by apply elem_of_nil in Hword.
  - rewrite IH, elem_of_difference. setoid_rewrite elem_of_cons. split.
    + intros [[? ?] Hrest]. split; [done|]. intros w [->|?]; auto.
    + intros [? Hall]. split_and!; [done | auto | auto].
Qed.

Lemma subtract_all_subseteq t negs ids : subtract_all t negs ids ⊆ ids.
Proof. intros id Hid. by apply elem_of_subtract_all in Hid as [? _]. Qed.

(** A lookup in an index whose entry under [P] was overwritten. *)
Lemma find_overwritten texts (index : gmap (gset string) (gset Z)) P acc ws :
  find {| _texts := texts; _index := <[P := acc]> index |} ws
  = if decide (P = frozenset ws) then acc
    else find {| _texts := texts; _index := index |} ws.
Proof.
  unfold find, index_get. simpl. case_decide as HP.
  - subst P. by rewrite lookup_insert_eq.
  - by rewrite lookup_insert_ne.
Qed.

(** The loop on a fresh set leaves the index alone. *)
Lemma fold_isub_fresh negs : ∀ ids t,
  fold_left (λ st word,
               isub (fst st) (find (snd st) [PyStr.drop_first word]) (snd st))
            negs (Fresh ids, t)
  = (Fresh (subtract_all t negs ids), t).
Proof.
  induction negs as [|word negs IH]; intros ids t; [done|].
  simpl. by rewrite IH.
Qed.

(** The loop on the stored set: each [-=] overwrites the entry under [P],
    and a lookup that hits that very entry reads the set being reduced,
    which changes nothing in what is left. *)
Lemma fold_isub_stored texts (index : gmap (gset string) (gset Z)) P ids :
  index !! P = Some ids →
  ∀ negs acc, acc ⊆ ids →
  fold_left (λ st word,
               isub (fst st) (find (snd st) [PyStr.drop_first word]) (snd st))
            negs
            (Stored P, {| _texts := texts; _index := <[P := acc]> index |})
  = (Stored P,
     {| _texts := texts;
        _index := <[P := subtract_all {| _texts := texts; _index := index |}
                           negs acc]> index |}).
Proof.
  intros HP. induction negs as [|word negs IH]; intros acc Hacc; [done|].
  simpl. unfold index_get at 1. rewrite lookup_insert_eq. simpl.
  rewrite insert_insert_eq, find_overwritten.
  assert (Hstep : acc ∖ (if decide (P = frozenset [PyStr.drop_first word])
                         then acc
                         else find {| _texts := texts; _index := index |}
                                [PyStr.drop_first word])
                  = acc ∖ find {| _texts := texts; _index := index |}
                            [PyStr.drop_first word]).
  { case_decide as Hkey; [|done]. apply set_eq. intros id.
    rewrite !elem_of_difference. unfold find, index_get. simpl.
    rewrite <- Hkey, HP. simpl. split; intros [Hin Hout]; destruct Hout; auto. }
  rewrite Hstep. apply IH.
  intros id Hid. apply elem_of_difference in Hid as [Hid _]. auto.
Qed.

(** The loop as a whole. *)
Lemma resolve_spec P negs t :
  resolve P negs t
  = (subtract_all t negs (find t (elements P)),
     match _index t !! P with
     | Some _ =>
         {| _texts := _texts t;
            _index := <[P := subtract_all t negs (find t (elements P))]>
                        (_index t) |}
     | None => t
     end).
Proof.
  assert (Hfind : find t (elements P) = index_get (_index t) P).
  { unfold find. by rewrite frozenset_elements. }
  rewrite Hfind. unfold resolve, find_ref. rewrite frozenset_elements.
  destruct t as [texts index]. simpl. unfold index_get.
  destruct (index !! P) as [ids|] eqn:HP; simpl.
  - rewrite <- (insert_id index P ids HP) at 1.
    rewrite (fold_isub_stored texts index P ids HP negs ids) by done.
    simpl. unfold index_get at 1. by rewrite lookup_insert_eq.
  - by rewrite fold_isub_fresh.
Qed.
End Resolve.

(** Membership in the result of a query run after ingestion. *)
Lemma elem_of_resolve_ingest (lines : list string) (P : gset string)
    (negs : list string) (id : Z) :
  P ≠ ∅ →
  id ∈ fst (resolve P negs (ingest lines))
  ↔ ∃ (i : nat) text,
      id = Z.of_nat i ∧ lines !! i = Some text
      ∧ P ⊆ frozenset (words_of text)
      ∧ ∀ word, word ∈ negs → PyStr.drop_first word ∉ words_of text.
Proof.
  intros HP. rewrite resolve_spec. simpl. rewrite elem_of_subtract_all.
  rewrite elem_of_find_ingest by by rewrite frozenset_elements.
  rewrite frozenset_elements. split.
  - intros [(i & text & -> & Hi & Hsub) Hnegs]. exists i, text.
    split_and!; [done..|]. intros word Hword Hin.
    apply (Hnegs word Hword).
    apply elem_of_find_ingest; [apply frozenset_singleton_ne|].
    exists i, text. split_and!; [done..|].
    by apply frozenset_singleton_subseteq.
  - intros (i & text & -> & Hi & Hsub & Hnegs). split; [eauto|].
    intros word Hword Hin.
    apply elem_of_find_ingest in Hin as (j & text' & Hj & Hj' & Hsub');
      [|apply frozenset_singleton_ne].
    apply Nat2Z.inj in Hj. subst j. rewrite Hi in Hj'. inversion Hj'; subst.
    apply (Hnegs word Hword). by apply frozenset_singleton_subseteq.
Qed.

(** X1. For any number of negative arguments, the set the loop of [main]
    leaves holds an id exactly when [find] of the positive words holds it
    and [find] of no negative word (its [-] removed) does, all lookups
    taken in the index as it was before the loop; the in-place [-=] on the
    stored set does not disturb the later lookups of the loop. *)
Theorem resolve_all_negatives (P : gset string) (negs : list string)
    (t : TextSearchIndex) (id : Z) :
  id ∈ fst (resolve P negs t)
  ↔ id ∈ find t (elements P)
    ∧ ∀ word, word ∈ negs → id ∉ find t [PyStr.drop_first word].
Proof. rewrite resolve_spec. simpl. apply elem_of_subtract_all. Qed.

(** X2. The loop writes through to the index: the entry list and every
    other key are untouched, but when the positive key is present its
    stored set is replaced by the result, so a later [find] of the positive
    words answers the reduced set; when the key is absent the index is
    left as it was and no key is created. *)
Theorem resolve_writes_through (P : gset string) (negs : list string)
    (t : TextSearchIndex) :
  let result := fst (resolve P negs t) in
  let t' := snd (resolve P negs t) in
  _texts t' = _texts t
  ∧ (∀ key, key ≠ P → _index t' !! key = _index t !! key)
  ∧ (is_Some (_index t !! P) → _index t' !! P = Some result)
  ∧ (_index t !! P = None → t' = t)
  ∧ find t' (elements P) = result.
Proof.
  intros result t'. unfold result, t'. rewrite resolve_spec. simpl.
  destruct (_index t !! P) as [ids|] eqn:HP; simpl.
  - split_and!.
    + done.
    + intros key Hkey. by rewrite lookup_insert_ne.
    + intros _. by rewrite lookup_insert_eq.
    + done.
    + unfold find at 1. rewrite frozenset_elements. unfold index_get. simpl.
      by rewrite lookup_insert_eq.
  - split_and!; [done | done | by intros [? ?] | done |].
    assert (Hempty : find t (elements P) = ∅).
    { unfold find, index_get. by rewrite frozenset_elements, HP. }
    rewrite Hempty. symmetry. apply set_eq. intros id. split.
    + apply subtract_all_subseteq.
    + intros Hid. by apply not_elem_of_empty in Hid.
Qed.

Lemma resolve_writes_through_witness :
  _index (snd (resolve {["server"]} ["-windows"]
                 (ingest ["python linux server"; "windows server only"])))
    !! ({["server"]} : gset string)
  = Some (fst (resolve {["server"]} ["-windows"]
                 (ingest ["python linux server"; "windows server only"]))).
Proof.
  destruct (resolve_writes_through {["server"]} ["-windows"]
              (ingest ["python linux server"; "windows server only"]))
    as (_ & _ & Hstored & _).
  apply Hstored. vm_compute. eauto.
Defined.

(** X3. The order in which the negative words are visited does not
    matter: two orders of the same words leave the same result and the
    same index. *)
Theorem resolve_order_irrelevant (P : gset string) (negs negs' : list string)
    (t : TextSearchIndex) :
  negs ≡ₚ negs' → resolve P negs t = resolve P negs' t.
Proof.
  intros Hperm.
  assert (Hsame : ∀ ids, subtract_all t negs ids = subtract_all t negs' ids).
  { intros ids. apply set_eq. intros id. rewrite !elem_of_subtract_all.
    split; intros [? Hall]; (split; [done|]); intros word Hword;
      apply Hall; [by rewrite Hperm | by rewrite <- Hperm]. }
  rewrite !resolve_spec. by rewrite Hsame.
Qed.

Lemma resolve_order_irrelevant_witness :
  resolve {["server"]} ["-windows"; "-linux"]
    (ingest ["python linux server"; "windows server only"])
  = resolve {["server"]} ["-linux"; "-windows"]
      (ingest ["python linux server"; "windows server only"]).
Proof.
  apply resolve_order_irrelevant. apply perm_swap.
Defined.

(** X4. After ingestion, a query with a non-empty positive set returns
    exactly the positions of the lines whose tokens include every positive
    word and none of the negative words. *)
Theorem query_semantics (lines : list string) (P : gset string)
    (negs : list string) (id : Z) :
  P ≠ ∅ →
  id ∈ fst (resolve P negs (ingest lines))
  ↔ ∃ (i : nat) text,
      id = Z.of_nat i ∧ lines !! i = Some text
      ∧ P ⊆ frozenset (words_of text)
      ∧ ∀ word, word ∈ negs → PyStr.drop_first word ∉ words_of text.
Proof. intros HP. by apply elem_of_resolve_ingest. Qed.

Lemma query_semantics_witness :
  0 ∈ fst (resolve {["server"]} ["-windows"]
             (ingest ["python linux server"; "windows server only"]))
  ↔ ∃ (i : nat) text,
      0 = Z.of_nat i
      ∧ ["python linux server"; "windows server only"] !! i = Some text
      ∧ {["server"]} ⊆ frozenset (words_of text)
      ∧ ∀ word, word ∈ ["-windows"] →
                PyStr.drop_first word ∉ words_of text.
Proof.
  apply (query_semantics ["python linux server"; "windows server only"]
           {["server"]} ["-windows"] 0).
  apply (bool_decide_unpack _). vm_compute. exact I.
Defined.

(** ** The driver *)

Section Driver.
Implicit Types (t : TextSearchIndex) (argv lines words : list string).
Implicit Types (word text : string) (id : Z).

Lemma filter_dash_none words : filter_dash words = None ↔ "" ∈ words.
Proof.
  induction words as [|word words IH]; simpl.
  - split; [done|]. intros Hin. by apply elem_of_nil in Hin.
  - rewrite elem_of_cons. destruct word as [|c word].
    + split; [by left | done].
    + destruct (filter_dash words) as [kept|].
      * split; [done|]. intros [Heq|Hin]; [done|]. by apply IH in Hin.
      * split; [|done]. intros _. right. by apply IH.
Qed.

Lemma filter_dash_some words : ∀ kept,
  filter_dash words = Some kept →
  ∀ word, word ∈ kept ↔ word ∈ words ∧ is_negative word = true.
Proof.
  induction words as [|w words IH]; simpl; intros kept Hkept word.
  - inversion Hkept; subst. split; [|by intros [Hin _]].
    intros Hin. by apply elem_of_nil in Hin.
  - destruct w as [|c w]; [done|].
    destruct (filter_dash words) as [kept'|]; [|done].
    specialize (IH kept' eq_refl word). inversion Hkept; subst kept.
    rewrite elem_of_cons. destruct (Ascii.eqb c "-") eqn:Hc.
    + rewrite elem_of_cons, IH. split.
      * intros [->|[? ?]]; [split; [by left | done] | auto].
      * intros [[->|?] ?]; auto.
    + rewrite IH. split; [intros [? ?]; auto|].
      intros [[->|?] Hneg]; [|done]. simpl in Hneg. congruence.
Qed.

Lemma print_entries_all t (line_of : Z → string) : ∀ (ids : list Z),
  (∀ id, id ∈ ids → entry t id = Some (line_of id)) →
  print_entries t ids
  = Some ((λ id, "Entry found: " +:+ line_of id) <$> ids).
Proof.
  induction ids as [|id ids IH]; intros Hall; simpl; [done|].
  rewrite (Hall id) by by left. rewrite IH; [done|].
  intros id' Hid'. apply Hall. by right.
Qed.

(** Picking, by position, the lines that pass a test gives the lines that
    pass it, in order. *)
Lemma filter_by_position (keep : string → bool) : ∀ lines before,
  (λ i : nat, default "" ((before ++ lines) !! i))
    <$> filter (λ i : nat,
                  from_option keep false ((before ++ lines) !! i) = true)
               (seq (length before) (length lines))
  = filter (λ text, keep text = true) lines.
Proof.
  induction lines as [|text lines IH]; intros before; [done|].
  specialize (IH (before ++ [text])).
  rewrite <- app_assoc, length_app in IH. simpl in IH.
  replace (length before + 1)%nat with (S (length before)) in IH by lia.
  change (seq (length before) (length (text :: lines)))
    with (length before :: seq (S (length before)) (length lines)).
  rewrite !filter_cons, list_lookup_middle by done. simpl.
  destruct (decide (keep text = true)).
  - rewrite fmap_cons, list_lookup_middle by done. simpl. by rewrite IH.
  - done.
Qed.
End Driver.

Section Main.
Implicit Types (argv lines : list string) (word text : string).

Lemma line_matches_spec argv text :
  line_matches argv text = true
  ↔ ∀ word, word ∈ argv →
      if is_negative word then PyStr.drop_first word ∉ words_of text
      else word ∈ words_of text.
Proof.
  unfold line_matches. rewrite forallb_forall.
  setoid_rewrite <- list_elem_of_In.
  split; intros Hall word Hword; specialize (Hall word Hword);
    destruct (is_negative word).
  - apply negb_true_iff, bool_decide_eq_false in Hall. done.
  - by apply bool_decide_eq_true in Hall.
  - by apply negb_true_iff, bool_decide_eq_false.
  - by apply bool_decide_eq_true.
Qed.

(** The split of the arguments made by [main], when no argument is
    empty. *)
Lemma main_partition argv :
  "" ∉ argv →
  ∃ dashed,
    filter_dash (elements (list_to_set argv : gset string)) = Some dashed
    ∧ (∀ word, word ∈ (list_to_set dashed : gset string)
               ↔ word ∈ argv ∧ is_negative word = true)
    ∧ (∀ word, word ∈ (list_to_set argv ∖ list_to_set dashed : gset string)
               ↔ word ∈ argv ∧ is_negative word = false).
Proof.
  intros Hempty.
  destruct (filter_dash (elements (list_to_set argv : gset string)))
    as [dashed|] eqn:Hdashed.
  - exists dashed. split; [done|].
    assert (Hneg : ∀ word, word ∈ (list_to_set dashed : gset string)
                           ↔ word ∈ argv ∧ is_negative word = true).
    { intros word.
      rewrite elem_of_list_to_set, (filter_dash_some _ _ Hdashed).
      by rewrite elem_of_elements, elem_of_list_to_set. }
    split; [done|]. intros word.
    rewrite elem_of_difference, Hneg, elem_of_list_to_set.
    destruct (is_negative word); split.
    + intros [? Hnot]. destruct Hnot. done.
    + by intros [_ ?].
    + by intros [? _].
    + intros [? _]. split; [done|]. by intros [_ ?].
  - apply filter_dash_none in Hdashed.
    apply elem_of_elements, elem_of_list_to_set in Hdashed. done.
Qed.

Lemma main_raises argv lines : "" ∈ argv → main lines argv = Raised_IndexError.
Proof.
  intros Hempty. unfold main.
  assert (Hnone : filter_dash (elements (list_to_set argv : gset string))
                  = None).
  { apply filter_dash_none. by apply elem_of_elements, elem_of_list_to_set. }
  by rewrite Hnone.
Qed.

Lemma main_exits argv lines :
  "" ∉ argv → (∀ word, word ∈ argv → is_negative word = true) →
  main lines argv = Exit 1 "Give some none negative word!".
Proof.
  intros Hempty Hall. unfold main.
  destruct (main_partition argv Hempty) as (dashed & -> & _ & Hpos).
  rewrite decide_True; [done|].
  apply set_eq. intros word. rewrite Hpos. split.
  - intros [Hword Hneg]. rewrite (Hall word Hword) in Hneg. done.
  - intros Hin. by apply not_elem_of_empty in Hin.
Qed.
Lemma main_prints argv lines :
  "" ∉ argv → (∃ word, word ∈ argv ∧ is_negative word = false) →
  ∃ output,
    main lines argv = Printed output
    ∧ output ≡ₚ (λ text, "Entry found: " +:+ text)
                 <$> filter (λ text, line_matches argv text = true) lines.
Proof.
  intros Hempty (w0 & Hw0 & Hw0pos). unfold main.
  destruct (main_partition argv Hempty) as (dashed & -> & Hneg & Hpos).
  set (neg := list_to_set dashed : gset string) in *.
  set (pos := (list_to_set argv ∖ neg : gset string)) in *.
  assert (Hposne : pos ≠ ∅).
  { intros Hnil. assert (Hin : w0 ∈ pos) by by apply Hpos.
    rewrite Hnil in Hin. by apply not_elem_of_empty in Hin. }
  rewrite decide_False by done.
  (* the result set *)
  assert (HR : ∀ id, id ∈ fst (resolve pos (elements neg) (ingest lines))
               ↔ ∃ (i : nat) text, id = Z.of_nat i ∧ lines !! i = Some text
                                   ∧ line_matches argv text = true).
  { intros id. rewrite elem_of_resolve_ingest by done.
    split; intros (i & text & -> & Hi & Hrest); exists i, text;
      (split; [done|]); (split; [done|]).
    - destruct Hrest as [Hsub Hnegs]. apply line_matches_spec.
      intros word Hword. destruct (is_negative word) eqn:Hword'.
      + apply Hnegs. apply elem_of_elements, Hneg. done.
      + assert (Hin : word ∈ pos) by by apply Hpos.
        apply Hsub in Hin. by apply elem_of_list_to_set in Hin.
    - pose proof (proj1 (line_matches_spec argv text) Hrest) as Hall.
      split.
      + intros word [Hword Hword']%Hpos. specialize (Hall word Hword).
        rewrite Hword' in Hall. by apply elem_of_list_to_set.
      + intros word [Hword Hword']%elem_of_elements%Hneg.
        specialize (Hall word Hword). by rewrite Hword' in Hall. }
  (* the index handed to the output loop still holds the lines *)
  assert (Htexts : _texts (snd (resolve pos (elements neg) (ingest lines)))
                   = lines).
  { rewrite resolve_spec. simpl.
    destruct (_index (ingest lines) !! pos); simpl; apply texts_ingest. }
  destruct (resolve pos (elements neg) (ingest lines)) as [R t'] eqn:Hres.
  simpl in HR, Htexts.
  rewrite (print_entries_all t' (λ id, default "" (lines !! Z.to_nat id))).
  - eexists. split; [done|].
    assert (Hperm : elements R
              ≡ₚ Z.of_nat
                   <$> filter (λ i : nat,
                                 from_option (line_matches argv) false
                                   (lines !! i) = true)
                              (seq 0 (length lines))).
    { apply NoDup_Permutation.
      - apply NoDup_elements.
      - apply NoDup_fmap_2; [apply _|]. apply NoDup_filter, NoDup_seq.
      - intros id. rewrite elem_of_elements, HR, list_elem_of_fmap.
        setoid_rewrite list_elem_of_filter. setoid_rewrite elem_of_seq.
        split.
        + intros (i & text & -> & Hi & Hm). exists i. split; [done|].
          rewrite Hi. simpl. split; [done|].
          apply lookup_lt_Some in Hi. lia.
        + intros (i & -> & Hm & _). exists i.
          destruct (lines !! i) as [text|]; [|done]. by exists text. }
    rewrite Hperm, <- list_fmap_compose.
    rewrite <- (filter_by_position (line_matches argv) lines []).
    rewrite <- list_fmap_compose. simpl.
    assert (Heq : ∀ l k : list string, l = k → l ≡ₚ k) by by intros ? ? ->.
    apply Heq. apply list_fmap_ext.
    intros _ i _. simpl. by rewrite Nat2Z.id.
  - intros id [i [text (-> & Hi & _)]]%elem_of_elements%HR.
    rewrite entry_position by (rewrite Htexts; apply lookup_lt_Some in Hi; lia).
    by rewrite Htexts, Nat2Z.id, Hi.
Qed.
(** The three ways a run can end, by the shape of the arguments. *)
Lemma main_cases argv lines :
  ("" ∈ argv ∧ main lines argv = Raised_IndexError)
  ∨ (("" ∉ argv) ∧ (∀ word, word ∈ argv → is_negative word = true)
     ∧ main lines argv = Exit 1 "Give some none negative word!")
  ∨ (("" ∉ argv) ∧ (∃ word, word ∈ argv ∧ is_negative word = false)
     ∧ ∃ output, main lines argv = Printed output).
Proof.
  destruct (decide ("" ∈ argv)) as [Hempty|Hempty].
  { left. split; [done|]. by apply main_raises. }
  right.
  destruct (decide (Forall (λ word, is_negative word = true) argv))
    as [Hall|Hsome].
  - left. rewrite Forall_forall in Hall. split_and!; [done..|].
    by apply main_exits.
  - right. apply not_Forall_Exists in Hsome; [|apply _].
    apply Exists_exists in Hsome as (word & Hword & Hpos).
    apply not_true_is_false in Hpos.
    split; [done|]. split; [eauto|].
    destruct (main_prints argv lines Hempty) as (output & Hout & _); eauto.
Qed.
End Main.

(** X5. [main] dies with an uncaught [IndexError] exactly when one of the
    arguments is the empty string: the test [word[0] == '-'] subscripts it.
    Nothing else in a run raises; in particular every id the query leaves
    is accepted by [entry]. *)
Theorem main_raises_iff (lines argv : list string) :
  main lines argv = Raised_IndexError ↔ "" ∈ argv.
Proof.
  split; [|apply main_raises].
  intros Hraised.
  destruct (main_cases argv lines)
    as [[? _]|[(_ & _ & Hexit)|(_ & _ & output & Hout)]]; [done|..].
  - rewrite Hexit in Hraised. discriminate.
  - rewrite Hout in Hraised. discriminate.
Qed.

(** X6. [main] stops with exit status 1 and the message about a missing
    non-negative word exactly when no argument is empty and every argument
    starts with [-], which includes the run without any argument; it never
    exits with another status or message. *)
Theorem main_exits_iff (lines argv : list string) :
  (main lines argv = Exit 1 "Give some none negative word!"
   ↔ ("" ∉ argv) ∧ ∀ word, word ∈ argv → is_negative word = true)
  ∧ (∀ status message,
       main lines argv = Exit status message →
       status = 1 ∧ message = "Give some none negative word!").
Proof.
  destruct (main_cases argv lines)
    as [[Hempty Hmain]|[(Hempty & Hall & Hmain)
                       |(Hempty & (word & Hword & Hpos) & output & Hmain)]];
    rewrite Hmain.
  - split; [split; [done | by intros [? _]] | done].
  - split; [done|]. intros status message Heq. by inversion Heq.
  - split; [|done]. split; [done|]. intros [_ Hall].
    rewrite (Hall word Hword) in Hpos. done.
Qed.

Lemma main_exits_iff_witness :
  main ["python linux server"; "windows server only"] ["-windows"; "-only"]
  = Exit 1 "Give some none negative word!".
Proof.
  destruct (main_exits_iff ["python linux server"; "windows server only"]
              ["-windows"; "-only"]) as [[_ Hexit] _].
  apply Hexit. split.
  - apply (bool_decide_unpack _). vm_compute. exact I.
  - intros word Hword.
    apply elem_of_cons in Hword as [->|Hword]; [reflexivity|].
    apply elem_of_cons in Hword as [->|Hword]; [reflexivity|].
    apply elem_of_nil in Hword. destruct Hword.
Defined.

(** X7. When no argument is empty and at least one does not start with
    [-], [main] returns normally and what it prints is, up to the order of
    the lines, one line [Entry found: <text>] for each input line whose
    tokens include every positive argument and none of the negative ones,
    each input line counted once per occurrence. *)
Theorem main_prints_matching_lines (lines argv : list string) :
  "" ∉ argv → (∃ word, word ∈ argv ∧ is_negative word = false) →
  ∃ output,
    main lines argv = Printed output
    ∧ output ≡ₚ (λ text, "Entry found: " +:+ text)
                 <$> filter (λ text, line_matches argv text = true) lines.
Proof. intros Hempty Hpos. by apply main_prints. Qed.

Lemma main_prints_matching_lines_witness :
  ∃ output,
    main ["python linux server"; "windows server only"; "linux server"]
         ["server"; "-windows"]
    = Printed output
    ∧ output ≡ₚ (λ text, "Entry found: " +:+ text)
                 <$> filter (λ text,
                               line_matches ["server"; "-windows"] text = true)
                            ["python linux server"; "windows server only";
                             "linux server"].
Proof.
  apply main_prints_matching_lines.
  - apply (bool_decide_unpack _). vm_compute. exact I.
  - exists "server". split; [by left | reflexivity].
Defined.



(** ** The stored map after [add] *)

Section StoredMap.
Implicit Types (index : gmap (gset string) (gset Z)).
Implicit Types (key : gset string) (id : Z) (t : TextSearchIndex).
Implicit Types (cs : list (list string)) (lines : list string).

Lemma index_add_inhabited key id index :
  values_inhabited index → values_inhabited (index_add key id index).
Proof.
  intros Hinv key' ids. unfold index_add.
  destruct (decide (key = key')) as [->|Hne].
  - rewrite lookup_insert_eq. intros [= <-] Hempty.
    apply (not_elem_of_empty (C:=gset Z) id). rewrite <- Hempty.
    apply elem_of_union_r. by apply elem_of_singleton.
  - rewrite lookup_insert_ne by done. apply Hinv.
Qed.

Lemma fold_index_add_inhabited cs : ∀ index id,
  values_inhabited index →
  values_inhabited
    (fold_left (λ index c, index_add (frozenset c) id index) cs index).
Proof.
  induction cs as [|c cs IH]; intros index id Hinv; simpl; [done|].
  apply IH. by apply index_add_inhabited.
Qed.

Lemma add_all_inhabited lines : ∀ t,
  values_inhabited (_index t) → values_inhabited (_index (add_all lines t)).
Proof.
  induction lines as [|line lines IH]; intros t Hinv; [done|].
  rewrite add_all_cons. apply IH. simpl. by apply fold_index_add_inhabited.
Qed.

(** The binding of a key after the insertions of one [add]. *)
Lemma lookup_fold_index_add cs : ∀ index id key,
  fold_left (λ index c, index_add (frozenset c) id index) cs index !! key
  = if decide (key ∈ frozenset <$> cs)
    then Some (index_get index key ∪ {[id]})
    else index !! key.
Proof.
  induction cs as [|c cs IH]; intros index id key.
  - done.
  - simpl fold_left. rewrite fmap_cons, IH, index_get_add. unfold index_add.
    destruct (decide (key ∈ frozenset <$> cs)) as [Hin|Hout];
      destruct (decide (frozenset c = key)) as [Heq|Hne];
      destruct (decide (key ∈ frozenset c :: (frozenset <$> cs)))
        as [Hin'|Hout'].
    + subst key. f_equal. apply set_eq. intros x.
      rewrite !elem_of_union. tauto.
    + destruct Hout'. by apply list_elem_of_further.
    + done.
    + destruct Hout'. by apply list_elem_of_further.
    + subst key. by rewrite lookup_insert_eq.
    + destruct Hout'. subst key. apply list_elem_of_here.
    + apply elem_of_cons in Hin' as [?|?]; [by subst | done].
    + by rewrite lookup_insert_ne.
Qed.

Lemma elem_of_frozenset_combinations (words : list string) key :
  key ∈ frozenset <$> all_combinations words
  ↔ key ≠ ∅ ∧ key ⊆ frozenset words.
Proof.
  rewrite <- frozenset_combination, list_elem_of_fmap.
  split; intros (c & ? & ?); exists c; auto.
Qed.
End StoredMap.

(** X8. After ingestion the stored map binds a key exactly when the key
    is a non-empty set of words all of which are tokens of one same
    ingested line, and it binds no key to the empty set: [add] neither
    files the empty key nor leaves an empty value behind. *)
Theorem index_keys_and_values (lines : list string) :
  (∀ key, is_Some (_index (ingest lines) !! key)
          ↔ key ≠ ∅ ∧ ∃ text, text ∈ lines
                              ∧ key ⊆ frozenset (words_of text))
  ∧ (∀ key ids, _index (ingest lines) !! key = Some ids → ids ≠ ∅).
Proof.
  assert (Hinv : values_inhabited (_index (ingest lines))).
  { apply add_all_inhabited. intros key ids Hkey.
    simpl in Hkey. by rewrite lookup_empty in Hkey. }
  split; [|exact Hinv]. intros key. split.
  - intros [ids Hkey].
    destruct (set_choose_L ids (Hinv key ids Hkey)) as [id Hid].
    assert (Hin : id ∈ index_get (_index (ingest lines)) key).
    { unfold index_get. by rewrite Hkey. }
    apply elem_of_index_ingest in Hin as (i & text & _ & Hi & Hne & Hsub).
    split; [done|]. exists text. split; [|done].
    by eapply list_elem_of_lookup_2.
  - intros (Hne & text & Htext & Hsub).
    apply list_elem_of_lookup_1 in Htext as [i Hi].
    assert (Hin : Z.of_nat i ∈ index_get (_index (ingest lines)) key).
    { apply elem_of_index_ingest. by exists i, text. }
    unfold index_get in Hin.
    destruct (_index (ingest lines) !! key) as [ids|]; [by eexists|].
    by apply not_elem_of_empty in Hin.
Qed.

Lemma index_keys_and_values_witness :
  is_Some (_index (ingest ["python linux server"; "windows server only"])
             !! ({["server"; "only"]} : gset string)).
Proof.
  destruct (index_keys_and_values
              ["python linux server"; "windows server only"]) as [Hkeys _].
  apply Hkeys. split.
  - apply (bool_decide_unpack _). vm_compute. exact I.
  - exists "windows server only". split.
    + apply list_elem_of_further, list_elem_of_here.
    + apply (bool_decide_unpack _). vm_compute. exact I.
Defined.

(** X9. [add] only ever grows the index: after any run of [add] calls
    every key still answers all the ids it answered before, every stored
    text is still at its position, and the entry list is longer by the
    number of calls. *)
Theorem add_all_only_grows (t : TextSearchIndex) (lines : list string) :
  (∀ ws, find t ws ⊆ find (add_all lines t) ws)
  ∧ (∀ (i : nat) text, _texts t !! i = Some text →
                        _texts (add_all lines t) !! i = Some text)
  ∧ length (_texts (add_all lines t))
    = (length (_texts t) + length lines)%nat.
Proof.
  split_and!.
  - intros ws id Hid. unfold find in *. apply elem_of_index_add_all. by left.
  - intros i text Hi. rewrite texts_add_all. by apply lookup_app_l_Some.
  - by rewrite texts_add_all, length_app.
Qed.

Lemma add_all_only_grows_witness :
  _texts (add_all ["windows server only"] (ingest ["python linux server"]))
    !! 0%nat
  = Some "python linux server".
Proof.
  destruct (add_all_only_grows (ingest ["python linux server"])
              ["windows server only"]) as (_ & Htexts & _).
  apply Htexts. reflexivity.
Defined.

(** X10. What [add] stores depends only on the set of distinct tokens of
    the text: two texts with the same distinct tokens, whatever their order
    and repetitions, leave the same stored map. *)
Theorem add_depends_on_distinct_tokens (a b : string) (t : TextSearchIndex) :
  frozenset (words_of a) = frozenset (words_of b) →
  _index (add a t) = _index (add b t).
Proof.
  intros Hsame. apply map_eq. intros key.
  pose proof (add_id a t) as Ha. pose proof (add_id b t) as Hb.
  simpl in Ha, Hb. simpl. rewrite Ha, Hb, !lookup_fold_index_add.
  destruct (decide (key ∈ frozenset <$> all_combinations (words_of a)))
    as [Hin|Hout];
    destruct (decide (key ∈ frozenset <$> all_combinations (words_of b)))
      as [Hin'|Hout']; try done.
  - destruct Hout'. apply elem_of_frozenset_combinations.
    apply elem_of_frozenset_combinations in Hin. by rewrite <- Hsame.
  - destruct Hout. apply elem_of_frozenset_combinations.
    apply elem_of_frozenset_combinations in Hin'. by rewrite Hsame.
Qed.

Lemma add_depends_on_distinct_tokens_witness :
  _index (add "a a b" (ingest ["python linux server"]))
  = _index (add "b a" (ingest ["python linux server"])).
Proof.
  apply add_depends_on_distinct_tokens.
  apply (bool_decide_unpack _). vm_compute. exact I.
Defined.

(** X11. After ingestion [entry] at a position given as a natural number
    agrees with the list of ingested lines: it returns the line at that
    position, and raises exactly when the list has no such position. *)
Theorem entry_ingest_lookup (lines : list string) (i : nat) :
  entry (ingest lines) (Z.of_nat i) = lines !! i.
Proof.
  destruct (decide (i < length lines)%nat) as [Hlt|Hge].
  - rewrite entry_position by (rewrite texts_ingest; lia).
    by rewrite texts_ingest, Nat2Z.id.
  - rewrite (lookup_ge_None_2 lines i) by lia.
    apply entry_none. rewrite texts_ingest. right. lia.
Qed.

(** ** The number of insertions made by one [add] *)

Section Counting.
Context {A : Type}.
Implicit Types (pool : list A) (r : nat).
Local Open Scope nat_scope.

Lemma length_combinations_cons (x : A) pool r :
  length (combinations (x :: pool) (S r))
  = length (combinations pool r) + length (combinations pool (S r)).
Proof. simpl. by rewrite length_app, length_map. Qed.

(** No selection is longer than the pool. *)
Lemma length_combinations_gt pool : ∀ r,
  length pool < r → length (combinations pool r) = 0.
Proof.
  induction pool as [|x pool IH]; intros r Hr.
  - destruct r; [simpl in Hr; lia | done].
  - destruct r as [|r]; [simpl in Hr; lia|].
    rewrite length_combinations_cons, !IH by (simpl in Hr; lia). done.
Qed.

Lemma list_sum_map_add (f g : nat → nat) (l : list nat) :
  list_sum (map (λ r, f r + g r) l) = list_sum (map f l) + list_sum (map g l).
Proof. induction l as [|r l IH]; simpl; [done|]. rewrite IH. lia. Qed.

Lemma list_sum_seq_first (f : nat → nat) (n : nat) :
  list_sum (map f (seq 0 (S n)))
  = f 0 + list_sum (map (λ r, f (S r)) (seq 0 n)).
Proof.
  rewrite <- cons_seq, <- seq_shift, map_cons, map_map. reflexivity.
Qed.

Lemma list_sum_seq_last (f : nat → nat) (n : nat) :
  list_sum (map f (seq 0 (S n))) = list_sum (map f (seq 0 n)) + f n.
Proof.
  rewrite seq_S, map_app, list_sum_app. simpl. lia.
Qed.

(** Over all lengths, the selections are as many as the subsets. *)
Lemma sum_length_combinations pool :
  list_sum (map (λ r, length (combinations pool r))
              (seq 0 (S (length pool))))
  = 2 ^ length pool.
Proof.
  induction pool as [|x pool IH]; [done|].
  pose proof (list_sum_seq_first
                (λ r, length (combinations (x :: pool) r))
                (S (length pool))) as E1.
  assert (E2 : map (λ r, length (combinations (x :: pool) (S r)))
                 (seq 0 (S (length pool)))
               = map (λ r, length (combinations pool r)
                           + length (combinations pool (S r)))
                   (seq 0 (S (length pool)))).
  { apply map_ext. intros r. apply length_combinations_cons. }
  pose proof (list_sum_map_add
                (λ r, length (combinations pool r))
                (λ r, length (combinations pool (S r)))
                (seq 0 (S (length pool)))) as E3.
  pose proof (list_sum_seq_last
                (λ r, length (combinations pool (S r))) (length pool)) as E4.
  pose proof (list_sum_seq_first
                (λ r, length (combinations pool r)) (length pool)) as E5.
  assert (Hlast : length (combinations pool (S (length pool))) = 0)
    by (apply length_combinations_gt; lia).
  assert (Hx : length (combinations (x :: pool) 0) = 1) by done.
  assert (H0 : length (combinations pool 0) = 1) by by destruct pool.
  change (length (x :: pool)) with (S (length pool)).
  rewrite Nat.pow_succ_r'. cbv beta in E1, E4, E5.
  rewrite E1, E2, E3, E4, Hlast, IH, Hx. rewrite IH, H0 in E5. lia.
Qed.

End Counting.

Lemma length_all_combinations_pow (words : list string) :
  length (all_combinations words) = (2 ^ length words - 1)%nat.
Proof.
  unfold all_combinations. rewrite length_concat, map_map.
  pose proof (sum_length_combinations words) as Hsum.
  rewrite <- cons_seq, map_cons in Hsum.
  change (list_sum (?a :: ?l)) with (a + list_sum l)%nat in Hsum.
  assert (H0 : length (combinations words 0) = 1%nat) by by destruct words.
  rewrite H0 in Hsum. lia.
Qed.


(** X12. One [add] runs the insertion [index[key].add(id)] once for each
    non-empty selection of positions of the token list: [2^n - 1] times
    for [n] tokens, that is [2^(k+1) - 1] times for a text with [k] space
    characters, repeated tokens included. *)
Theorem add_insertion_count (text : string) :
  length (all_combinations (words_of text))
  = (2 ^ length (words_of text) - 1)%nat
  ∧ length (words_of text) = S (PyStr.count " " text).
Proof.
  split; [apply length_all_combinations_pow|].
  rewrite length_words_of. apply length_split.
Qed.

(** ** Tokens *)

Section Tokens.
Import PyStr.
Implicit Types (s w x y : string) (c sep : ascii) (ws : list string).

Lemma count_app sep x y :
  count sep (x +:+ y) = (count sep x + count sep y)%nat.
Proof.
  induction x as [|c x IH]; [done|]. rewrite app_cons. simpl.
  rewrite IH. by destruct (Ascii.eqb c sep).
Qed.

Lemma count_trimmed_from chars sep w x :
  trimmed_from chars w x → (count sep x ≤ count sep w)%nat.
Proof. intros (l & r & -> & _). rewrite !count_app. lia. Qed.

Lemma words_of_no_space text w :
  w ∈ words_of text → count " " w = O.
Proof.
  unfold words_of. rewrite list_elem_of_In, in_map_iff.
  intros (piece & <- & Hpiece%list_elem_of_In%split_pieces).
  pose proof (count_trimmed_from strip_class " " piece (normalize_word piece)
                (normalize_word_trimmed piece)). lia.
Qed.

(** A word whose two ends are outside the class passes through the
    normalizer unchanged. *)
Lemma clean_ends_mono chars chars' s :
  (∀ c, mem_char c chars' = true → mem_char c chars = true) →
  clean_ends chars s = true → clean_ends chars' s = true.
Proof.
  intros Hsub. unfold clean_ends.
  destruct (first_char s) as [a|], (last_char s) as [b|]; try done.
  rewrite !andb_true_iff, !negb_true_iff. intros [Ha Hb].
  split; apply not_true_is_false; intros Hin%Hsub; congruence.
Qed.

Lemma fold_strip_fixed (seps : list string) w :
  (∀ s, s ∈ seps → strip s w = w) →
  fold_left (λ word s, strip s word) seps w = w.
Proof.
  induction seps as [|s seps IH]; intros Hall; simpl; [done|].
  rewrite (Hall s) by by left. apply IH. intros s' Hs'. apply Hall. by right.
Qed.

Lemma normalize_word_fixed w :
  clean_ends strip_class w = true → normalize_word w = w.
Proof.
  intros Hclean. apply fold_strip_fixed. intros s Hs.
  apply strip_fixed. eapply clean_ends_mono; [|done].
  intros c. by apply strip_chars_in_class.
Qed.

(** *** [split] undoes [join] *)

Lemma split_no_sep sep w : count sep w = O → split sep w = [w].
Proof.
  induction w as [|c w IH]; simpl; [done|].
  destruct (Ascii.eqb c sep); [done|]. intros Hw. by rewrite IH.
Qed.

Lemma split_app_sep sep w s :
  count sep w = O → split sep (w +:+ String sep s) = w :: split sep s.
Proof.
  induction w as [|c w IH]; intros Hw.
  - rewrite app_nil_l. simpl. by rewrite Ascii.eqb_refl.
  - rewrite app_cons. simpl in *.
    destruct (Ascii.eqb c sep); [done|]. by rewrite IH.
Qed.

Lemma split_join sep ws :
  ws ≠ [] → (∀ w, w ∈ ws → count sep w = O) →
  split sep (String.concat (String sep EmptyString) ws) = ws.
Proof.
  induction ws as [|w ws IH]; intros Hne Hall; [done|].
  destruct ws as [|w' ws].
  - simpl. apply split_no_sep, Hall. by left.
  - change (String.concat (String sep "") (w :: w' :: ws))
      with (w +:+ String sep (String.concat (String sep "") (w' :: ws))).
    rewrite split_app_sep by (apply Hall; by left).
    f_equal. apply IH; [done|]. intros x Hx. apply Hall. by right.
Qed.
End Tokens.

(** X13. No token contains a space character, so a query that names a
    word with a space in it finds nothing, whatever was ingested. *)
Theorem space_in_query_word_finds_nothing (lines ws : list string)
    (w : string) :
  (∀ text token, token ∈ words_of text → PyStr.count " " token = O)
  ∧ (w ∈ ws → PyStr.count " " w ≠ O → find (ingest lines) ws = ∅).
Proof.
  split; [intros text token; apply words_of_no_space|].
  intros Hw Hspace. apply set_eq. intros id.
  split; [|by intros ?%not_elem_of_empty].
  assert (Hne : frozenset ws ≠ ∅).
  { intros Hnil. apply (not_elem_of_empty (C:=gset string) w).
    rewrite <- Hnil. by apply elem_of_list_to_set. }
  intros (i & text & _ & _ & Hsub)%elem_of_find_ingest; [|done].
  destruct Hspace. apply (words_of_no_space text).
  apply (elem_of_list_to_set (C:=gset string)), Hsub.
  by apply elem_of_list_to_set.
Qed.

Lemma space_in_query_word_finds_nothing_witness :
  find (ingest ["python linux server"]) ["python linux"] = ∅.
Proof.
  destruct (space_in_query_word_finds_nothing ["python linux server"]
              ["python linux"] "python linux") as [_ Hnone].
  apply Hnone; [apply list_elem_of_here | vm_compute; discriminate].
Defined.

(** X14. A word that neither starts nor ends with one of the six
    characters is left unchanged by the normalizer. *)
Theorem normalize_word_keeps_clean_words (word : string) :
  PyStr.clean_ends strip_class word = true → normalize_word word = word.
Proof. apply normalize_word_fixed. Qed.

Lemma normalize_word_keeps_clean_words_witness :
  normalize_word "it's,ok" = "it's,ok".
Proof. apply normalize_word_keeps_clean_words. reflexivity. Defined.

(** X15. Tokenizing undoes joining: for a non-empty list of words, none
    containing a space and none starting or ending with one of the six
    characters, the tokens of the words joined by single spaces are the
    words themselves, in order. *)
Theorem words_of_join (ws : list string) :
  ws ≠ [] →
  (∀ w, w ∈ ws → PyStr.count " " w = O
                 ∧ PyStr.clean_ends strip_class w = true) →
  words_of (String.concat " " ws) = ws.
Proof.
  intros Hne Hall. unfold words_of.
  rewrite split_join; [|done | intros w Hw; by apply Hall].
  rewrite <- (map_id ws) at 2. apply map_ext_in.
  intros w Hw%list_elem_of_In. apply normalize_word_fixed. by apply Hall.
Qed.

Lemma words_of_join_witness :
  words_of (String.concat " " ["python"; "linux"; "server"])
  = ["python"; "linux"; "server"].
Proof.
  apply words_of_join; [discriminate|].
  intros w Hw. repeat (apply elem_of_cons in Hw as [->|Hw]; [by split|]).
  by apply elem_of_nil in Hw.
Defined.

(** ** What one [strip] guarantees *)

Section StripEnds.
Import PyStr.
Implicit Types (s chars : string) (c : ascii).

Lemma first_char_lstrip chars s c :
  first_char (lstrip chars s) = Some c → mem_char c chars = false.
Proof.
  induction s as [|a s IH]; simpl; [done|].
  destruct (mem_char a chars) eqn:Ha; [done|].
  simpl. by intros [= <-].
Qed.

Lemma last_char_rstrip chars s c :
  last_char (rstrip chars s) = Some c → mem_char c chars = false.
Proof.
  induction s as [|a s IH]; simpl; [done|].
  destruct (rstrip chars s) as [|d kept].
  - destruct (mem_char a chars) eqn:Ha; simpl; [done|]. by intros [= <-].
  - done.
Qed.

Lemma first_char_rstrip chars s c :
  first_char (rstrip chars s) = Some c → first_char s = Some c.
Proof.
  destruct s as [|a s]; simpl; [done|].
  destruct (rstrip chars s); [|done].
  by destruct (mem_char a chars).
Qed.

Lemma clean_ends_strip chars s : clean_ends chars (strip chars s) = true.
Proof.
  unfold clean_ends, strip.
  destruct (first_char (rstrip chars (lstrip chars s))) as [a|] eqn:Ha;
    [|done].
  destruct (last_char (rstrip chars (lstrip chars s))) as [b|] eqn:Hb;
    [|done].
  apply first_char_rstrip, first_char_lstrip in Ha.
  apply last_char_rstrip in Hb. by rewrite Ha, Hb.
Qed.
End StripEnds.

(** X16. Each [strip] leaves a word that neither starts nor ends with a
    character of its argument, so stripping again changes nothing; since
    the semicolon is stripped last, no token starts or ends with a
    semicolon. *)
Theorem tokens_have_no_semicolon_ends (chars word : string) :
  PyStr.strip chars (PyStr.strip chars word) = PyStr.strip chars word
  ∧ PyStr.clean_ends ";" (normalize_word word) = true
  ∧ ∀ text token, token ∈ words_of text →
                  PyStr.clean_ends ";" token = true.
Proof.
  split_and!.
  - apply strip_fixed, clean_ends_strip.
  - unfold normalize_word, strip_chars. simpl. apply clean_ends_strip.
  - intros text token. unfold words_of.
    rewrite list_elem_of_In, in_map_iff. intros (piece & <- & _).
    unfold normalize_word, strip_chars. simpl. apply clean_ends_strip.
Qed.

Lemma tokens_have_no_semicolon_ends_witness :
  PyStr.clean_ends ";" "server" = true.
Proof.
  destruct (tokens_have_no_semicolon_ends ";" "server;") as (_ & _ & Htokens).
  apply (Htokens "python linux ;server;").
  apply list_elem_of_further, list_elem_of_further, list_elem_of_here.
Defined.
